(** * gemact: the [LossModelCalculator] of [gemact/calculators.py]

    A shallow embedding of the static methods of [LossModelCalculator]:
    the severity discretizations ([mass_dispersal], [lower_discretization],
    [upper_discretization], [local_moments] and the helper
    [upper_discr_point_prob_adjuster]) and the aggregations
    ([fast_fourier_transform], [panjer_recursion], [mc_simulation]).

    Conventions of the embedding.
    - A Python/numpy float is a real number of [R]: arithmetic is exact, so
      the theorems speak about the formulas the code evaluates, not about
      their binary64 rounding.
    - A one-dimensional numpy array is a [list]; node counts are [nat].
    - A raised exception is the [Raise] case of [outcome]; the module logger
      is a list of diagnostics threaded through the aggregations.
    - The objects the calculator receives (severity and frequency models) and
      the library routines it calls (the discrete Fourier transforms, the
      global numpy random generator) are not part of [calculators.py]: they
      are record fields and section variables. *)

From Stdlib Require Import Reals Lra Lia List Arith ZArith Bool Sorted.
From Stdlib Require String.
Import ListNotations.
Open Scope R_scope.

(* ------------------------------------------------------------------ *)
(** * Exceptions *)

Inductive exn : Type :=
| ValueError
| IndexError
| ZeroDivisionError.

Inductive outcome (A : Type) : Type :=
| Return (a : A)
| Raise (e : exn).

Arguments Return {A} a.
Arguments Raise {A} e.

Definition obind {A B : Type} (m : outcome A) (k : A -> outcome B) : outcome B :=
  match m with
  | Return a => k a
  | Raise e => Raise e
  end.

Declare Scope outcome_scope.
Delimit Scope outcome_scope with outcome.
Notation "x <~ m ; k" := (obind m (fun x => k))
  (at level 61, m at next level, right associativity) : outcome_scope.

(* ------------------------------------------------------------------ *)
(** * The numpy operations the calculator uses *)

Module np.

(** [np.arange(lo, hi)] on integers: empty when [hi <= lo]. *)
Definition arange (lo hi : nat) : list nat := seq lo (hi - lo).

(** Elementwise combination of two arrays of one length. *)
Fixpoint zip_with (f : R -> R -> R) (xs ys : list R) : list R :=
  match xs, ys with
  | x :: xs', y :: ys' => f x y :: zip_with f xs' ys'
  | _, _ => []
  end.

(** Elementwise binary operator with numpy's broadcasting rule for
    one-dimensional operands: equal lengths combine entry by entry, an
    operand of length one is stretched, anything else is a [ValueError]. *)
Definition broadcast (f : R -> R -> R) (xs ys : list R) : outcome (list R) :=
  if Nat.eqb (length xs) (length ys) then Return (zip_with f xs ys)
  else match xs, ys with
       | [x], _ => Return (map (f x) ys)
       | _, [y] => Return (map (fun x => f x y) xs)
       | _, _ => Raise ValueError
       end.

(** [np.sum]; the sum of the empty array is [0]. *)
Definition sum (xs : list R) : R := fold_right Rplus 0 xs.

Fixpoint cumsum_from (acc : R) (xs : list R) : list R :=
  match xs with
  | [] => []
  | x :: xs' => (acc + x) :: cumsum_from (acc + x) xs'
  end.

(** [np.cumsum]. *)
Definition cumsum (xs : list R) : list R := cumsum_from 0 xs.

(** [np.minimum(xs, c)] with a scalar [c]. *)
Definition minimum (xs : list R) (c : R) : list R := map (fun x => Rmin x c) xs.

(** [np.repeat(0, k)]: a negative count is a [ValueError]. *)
Definition repeat0 (k : Z) : outcome (list R) :=
  if (k <? 0)%Z then Raise ValueError else Return (repeat 0 (Z.to_nat k)).

(** [a[i]] for [0 <= i]. *)
Definition item (xs : list R) (i : nat) : outcome R :=
  match nth_error xs i with
  | Some x => Return x
  | None => Raise IndexError
  end.

(** [a[-1]]. *)
Definition item_last (xs : list R) : outcome R :=
  match xs with
  | [] => Raise IndexError
  | _ => Return (last xs 0)
  end.

(** [a[lo:hi]] for [0 <= lo] and [0 <= hi]. *)
Definition slice {A : Type} (lo hi : nat) (xs : list A) : list A :=
  firstn (hi - lo) (skipn lo xs).

End np.

(** Python's [int / int]: true division, [ZeroDivisionError] on a zero
    divisor. *)
Definition py_div (x : R) (n : nat) : outcome R :=
  match n with
  | O => Raise ZeroDivisionError
  | _ => Return (x / INR n)
  end.

(* ------------------------------------------------------------------ *)
(** * Data model *)

(** [exit_point]: a float that is either finite or [float('inf')]. *)
Inductive bound : Type :=
| Finite (u : R)
| Infinity.

(** [exit_point != float('inf')]. *)
Definition is_finite (u : bound) : bool :=
  match u with
  | Finite _ => true
  | Infinity => false
  end.

(** The capability set of [severity.model]. *)
Record SeverityModel : Type := {
  cdf : R -> R;
  ppf : R -> R;
  lev : R -> R;
  den : R -> R -> R          (* den(low, loc) *)
}.

Record Severity : Type := {
  smodel : SeverityModel;    (* severity.model *)
  loc : R                    (* severity.loc *)
}.

(** The dictionary [{'nodes': ..., 'fj': ...}]. *)
Record Discretized : Type := {
  nodes : list R;
  fj : list R
}.

(* ------------------------------------------------------------------ *)
(** * Severity discretization *)

Section Discretization.

Variable severity : Severity.
Variable deductible : R.
Variable exit_point : bound.
Variable discr_step : R.
Variable n_discr_nodes : nat.

Let F : R -> R := cdf (smodel severity).
Let L : R -> R := lev (smodel severity).

(** [severity.loc + np.arange(0, n_discr_nodes) * discr_step] *)
Definition grid : list R :=
  map (fun j => loc severity + INR j * discr_step) (np.arange 0 n_discr_nodes).

(** [np.concatenate((nodes, [nodes[-1] + discr_step]))] when the exit point
    is finite. *)
Definition extend_grid (nd : list R) : outcome (list R) :=
  if is_finite exit_point
  then (z <~ np.item_last nd ; Return (nd ++ [z + discr_step]))%outcome
  else Return nd.

(** [cdf(...)[1:] - cdf(...)[:-1]], divided by the survival at the
    deductible. *)
Definition increments (Fn : list R) : list R :=
  map (fun x => x / (1 - F deductible))
      (np.zip_with Rminus (tl Fn) (removelast Fn)).

Definition mass_dispersal : outcome Discretized :=
  let f0 := (F (deductible + discr_step / 2) - F deductible)
            / (1 - F deductible) in
  let nodes0 := map (fun j => INR j + 5 / 10) (np.arange 0 n_discr_nodes) in
  let Fn := map (fun x => F (deductible + x * discr_step)) nodes0 in
  let fj0 := f0 :: increments Fn in
  let fj1 :=
    match exit_point with
    | Finite u =>
        fj0 ++ [(1 - F (u - discr_step / 2)) / (1 - F deductible)]
    | Infinity => fj0
    end in
  (nd <~ extend_grid grid ;
   Return {| nodes := nd; fj := fj1 |})%outcome.

Definition lower_discretization : outcome Discretized :=
  let f0 := (F deductible - F deductible) / (1 - F deductible) in
  let nodes0 := map INR (np.arange 0 n_discr_nodes) in
  let Fn := map (fun x => F (deductible + x * discr_step)) nodes0 in
  let fj0 := f0 :: increments Fn in
  let fj1 :=
    match exit_point with
    | Finite u =>
        fj0 ++ [(1 - F (u - discr_step)) / (1 - F deductible)]
    | Infinity => fj0
    end in
  (nd <~ extend_grid grid ;
   Return {| nodes := nd; fj := fj1 |})%outcome.

(** No statement of [upper_discretization] can raise: the node grid is
    returned as it is built. *)
Definition upper_discretization : Discretized :=
  let nodes0 := map INR (np.arange 0 (n_discr_nodes + 1)) in
  let Fn := map (fun x => F (deductible + x * discr_step)) nodes0 in
  let fj0 := increments Fn in
  let fj1 :=
    match exit_point with
    | Finite u => fj0 ++ [(1 - F u) / (1 - F deductible)]
    | Infinity => fj0
    end in
  {| nodes := grid; fj := fj1 |}.

(** The result is [np.array([])] or a scalar; both are consumed by
    [np.append], so the scalar is the one-entry array. *)
Definition upper_discr_point_prob_adjuster : list R :=
  match exit_point with
  | Infinity => []
  | Finite u =>
      [(L (u - loc severity) - L (u - loc severity - discr_step))
       / (discr_step * den (smodel severity) deductible (loc severity))]
  end.

Definition local_moments : outcome Discretized :=
  let last_node_prob := upper_discr_point_prob_adjuster in
  let n := L (deductible + discr_step - loc severity)
           - L (deductible - loc severity) in
  let den_ := discr_step * den (smodel severity) deductible (loc severity) in
  let at_ (js : list nat) :=
    map (fun j => L (deductible - loc severity + INR j * discr_step)) js in
  let nj :=
    np.zip_with Rminus
      (np.zip_with Rminus
         (map (fun x => 2 * x) (at_ (np.arange 1 n_discr_nodes)))
         (at_ (np.arange 0 (n_discr_nodes - 1))))
      (at_ (np.arange 2 (n_discr_nodes + 1))) in
  let fj0 := (1 - n / den_) :: map (fun x => x / den_) nj in
  (nd <~ extend_grid grid ;
   Return {| nodes := nd; fj := fj0 ++ last_node_prob |})%outcome.

End Discretization.

(* ------------------------------------------------------------------ *)
(** * Aggregation: data model and effects *)

(** Complex numbers, as pairs of a real and an imaginary part. *)
Definition C : Type := (R * R)%type.
Definition RtoC (x : R) : C := (x, 0).
Definition Cre (z : C) : R := fst z.

(** The capability set of [frequency.model]. numpy evaluates [pgf] on every
    entry of the array it is given; [rvs n seed] draws [n] claim counts from a
    generator of its own, seeded with [seed]. *)
Record FrequencyModel : Type := {
  pgf : C -> C;
  pmf : nat -> R;
  rvs : nat -> Z -> list nat
}.

Record Frequency : Type := {
  fmodel : FrequencyModel;                        (* frequency.model *)
  abp0g0 : list R -> R * R * R * list R           (* frequency.abp0g0(fj) *)
}.

(** The dictionary [{'cdf': ..., 'nodes': ...}]. *)
Module Aggregate.
Record t : Type := { cdf : list R; nodes : list R }.
End Aggregate.

(** Records of the module logger. *)
Inductive level : Type := DEBUG | INFO | WARNING | ERROR | CRITICAL.

Record diagnostic : Type := {
  diag_level : level;
  diag_template : String.string;
  diag_argument : R        (* the value formatted into the message *)
}.

Module Messages.
Import String.
Local Open Scope string_scope.

Definition shortfall_template : string :=
  "Failure to obtain a cumulative distribution function close to 1. "
  ++ "Last calculated cumulative probability is %s.".
End Messages.

(** Computations that may raise and that write to the logger. *)
Definition M (A : Type) : Type := list diagnostic -> outcome A * list diagnostic.

Definition ret {A : Type} (a : A) : M A := fun lg => (Return a, lg).

Definition bind {A B : Type} (m : M A) (k : A -> M B) : M B :=
  fun lg =>
    match m lg with
    | (Return a, lg') => k a lg'
    | (Raise e, lg') => (Raise e, lg')
    end.

Definition lift {A : Type} (o : outcome A) : M A := fun lg => (o, lg).

(** [logger.warning(message)] *)
Definition logger_warning (template : String.string) (x : R) : M unit :=
  fun lg =>
    (Return tt,
     lg ++ [{| diag_level := WARNING; diag_template := template; diag_argument := x |}]).

Declare Scope M_scope.
Delimit Scope M_scope with M.
Notation "x <- m ;; k" := (bind m (fun x => k))
  (at level 61, m at next level, right associativity) : M_scope.
Notation "m ;; k" := (bind m (fun _ => k))
  (at level 61, right associativity) : M_scope.

Module npx.

(** [np.cumsum] on integer counts. *)
Fixpoint cumsum_nat_from (acc : nat) (xs : list nat) : list nat :=
  match xs with
  | [] => []
  | x :: xs' => (acc + x)%nat :: cumsum_nat_from (acc + x)%nat xs'
  end.

Definition cumsum_nat (xs : list nat) : list nat := cumsum_nat_from 0 xs.

Definition sum_nat (xs : list nat) : nat := fold_right Nat.add 0%nat xs.

(** [a[:(n - 1)]] for an integer [0 <= n]: for [n = 0] the stop is [-1],
    which drops the last entry. *)
Definition upto_pred {A : Type} (n : nat) (xs : list A) : list A :=
  match n with
  | O => removelast xs
  | S k => firstn k xs
  end.

(** [np.split(ary, indices)]: the pieces [ary[0:i0]], [ary[i0:i1]], ...,
    [ary[ik:]]. *)
Fixpoint split_from (st : nat) (ary : list R) (indices : list nat) : list (list R) :=
  match indices with
  | [] => [np.slice st (length ary) ary]
  | i :: rest => np.slice st i ary :: split_from i ary rest
  end.

Definition split (ary : list R) (indices : list nat) : list (list R) :=
  split_from 0 ary indices.

Fixpoint insert_unique (x : R) (xs : list R) : list R :=
  match xs with
  | [] => [x]
  | y :: ys =>
      if Rlt_dec x y then x :: y :: ys
      else if Req_dec_T x y then y :: ys
      else y :: insert_unique x ys
  end.

(** [np.unique]: the distinct values, in increasing order. *)
Definition unique (xs : list R) : list R := fold_right insert_unique [] xs.

End npx.

(** Modelled from the spec: [helperfunctions.ecdf], which [mc_simulation]
    calls and whose module is not part of [calculators.py]. The spec has it
    build the empirical cdf of the realized values: at [x] it is the share of
    the sample that is at most [x]. *)
Definition ecdf (sample : list R) (x : R) : R :=
  INR (length (filter (fun y => if Rle_dec y x then true else false) sample))
  / INR (length sample).

(* ------------------------------------------------------------------ *)
(** * Aggregation methods *)

Section Aggregation.

(** [config.PROB_TOLERANCE] *)
Variable PROB_TOLERANCE : R.

(** [fft] and [ifft] of the transform library, on non-empty arrays. *)
Variable fft ifft : list C -> list C.

(** The transform library rejects an empty array. *)
Definition call_transform (t : list C -> list C) (xs : list C) : outcome (list C) :=
  match xs with
  | [] => Raise ValueError
  | _ => Return (t xs)
  end.

(** The common tail of the two deterministic methods: optional
    normalization, the clipped cumulative sum, the shortfall warning and
    the result dictionary. *)
Definition finish (g : list R) (normalize : bool) (discr_step : R)
           (n_aggr_dist_nodes : nat) : M Aggregate.t :=
  let g1 := if normalize then map (fun x => x / np.sum g) g else g in
  let cum_probs := np.minimum (np.cumsum g1) 1 in
  (z <- lift (np.item_last cum_probs) ;;
   (if Rgt_dec (1 - z) PROB_TOLERANCE
    then logger_warning Messages.shortfall_template z
    else ret tt) ;;
   ret {| Aggregate.cdf := cum_probs;
          Aggregate.nodes :=
            map (fun i => discr_step * INR i) (np.arange 0 n_aggr_dist_nodes) |})%M.

(** [np.exp(t * np.arange(0, n, step=1))] *)
Definition exp_ramp (t : R) (n : nat) : list R :=
  map (fun i => exp (t * INR i)) (np.arange 0 n).

(** [np.append(fj, np.repeat(0, n - fj.shape[0]))] *)
Definition zero_pad (fj0 : list R) (n : nat) : outcome (list R) :=
  (pad <~ np.repeat0 (Z.of_nat n - Z.of_nat (length fj0)) ;
   Return (fj0 ++ pad))%outcome.

Definition tilting_parameter (tilt : bool) (tilt_value : option R)
           (n_aggr_dist_nodes : nat) : outcome R :=
  if tilt then
    match tilt_value with
    | None => py_div 20 n_aggr_dist_nodes
    | Some v => Return v
    end
  else Return 0.

(** The mass vector [g] of [fast_fourier_transform], before
    normalization. *)
Definition fft_masses (severity : Discretized) (frequency : Frequency)
           (n_aggr_dist_nodes : nat) (tilt : bool) (tilt_value : option R)
  : outcome (list R) :=
  (tilting_par <~ tilting_parameter tilt tilt_value n_aggr_dist_nodes ;
   fj1 <~ zero_pad (fj severity) n_aggr_dist_nodes ;
   tilted <~ np.broadcast Rmult (exp_ramp (- tilting_par) n_aggr_dist_nodes) fj1 ;
   f_hat <~ call_transform fft (map RtoC tilted) ;
   let g_hat := map (pgf (fmodel frequency)) f_hat in
   back <~ call_transform ifft g_hat ;
   np.broadcast Rmult (exp_ramp tilting_par n_aggr_dist_nodes) (map Cre back))%outcome.

Definition fast_fourier_transform (severity : Discretized) (frequency : Frequency)
           (n_aggr_dist_nodes : nat) (discr_step : R) (tilt : bool)
           (tilt_value : option R) (normalize : bool) : M Aggregate.t :=
  (g <- lift (fft_masses severity frequency n_aggr_dist_nodes tilt tilt_value) ;;
   finish g normalize discr_step n_aggr_dist_nodes)%M.

(** One pass of the loop body for index [j]: the new value is inserted at
    position [0]. *)
Definition panjer_step (a b : R) (fj1 : list R) (j : nat) (g : list R)
  : outcome (list R) :=
  let coef := map (fun i => a + b * INR i / INR j) (np.arange 1 (j + 1)) in
  (t1 <~ np.broadcast Rmult coef (np.slice 1 (j + 1) fj1) ;
   t2 <~ np.broadcast Rmult t1 (np.slice 0 j g) ;
   Return (np.sum t2 :: g))%outcome.

Fixpoint panjer_loop (a b : R) (fj1 : list R) (js : list nat) (g : list R)
  : outcome (list R) :=
  match js with
  | [] => Return g
  | j :: js' => (g' <~ panjer_step a b fj1 j g ; panjer_loop a b fj1 js' g')%outcome
  end.

(** The mass vector [g] of [panjer_recursion], before normalization. *)
Definition panjer_masses (frequency : Frequency) (severity : Discretized)
           (n_aggr_dist_nodes : nat) : outcome (list R) :=
  let '(a, b, p0, g0) := abp0g0 frequency (fj severity) in
  (fj1 <~ zero_pad (fj severity) n_aggr_dist_nodes ;
   let fpmf := pmf (fmodel frequency) 1 in
   g <~ panjer_loop a b fj1 (np.arange 1 n_aggr_dist_nodes) g0 ;
   num <~ np.broadcast Rplus (map (fun x => (fpmf - (a + b) * p0) * x) fj1) (rev g) ;
   f0 <~ np.item fj1 0 ;
   Return (map (fun x => x / (1 - a * f0)) num))%outcome.

Definition panjer_recursion (frequency : Frequency) (severity : Discretized)
           (n_aggr_dist_nodes : nat) (discr_step : R) (normalize : bool)
  : M Aggregate.t :=
  (g <- lift (panjer_masses frequency severity n_aggr_dist_nodes) ;;
   finish g normalize discr_step n_aggr_dist_nodes)%M.

(** numpy's global random generator: its states, the state a seed
    determines, and [np.random.uniform(low, high, size)], which consumes
    the state it is run from. *)
Variable rng : Type.
Variable seeded : Z -> rng.
Variable np_random_uniform : R -> R -> nat -> rng -> list R * rng.

(** [np.random.seed(s)] replaces the state of the global generator. *)
Definition np_random_seed (s : Z) (st : rng) : unit * rng := (tt, seeded s).

(** [p0] of [mc_simulation]. *)
Definition mc_p0 (severity : Severity) (deductible : R) : R :=
  if Rgt_dec deductible (1 / 100000) then cdf (smodel severity) deductible else 0.

(** [fqsample] *)
Definition mc_fqsample (frequency : Frequency) (n_sim : nat) (random_state : Z)
  : list nat :=
  rvs (fmodel frequency) n_sim random_state.

(** The uniform draws behind the severity sample, with the state of the
    generator after them. *)
Definition mc_uniforms (severity : Severity) (frequency : Frequency)
           (deductible : R) (n_sim : nat) (random_state : Z) (st : rng)
  : list R * rng :=
  let fqsample := mc_fqsample frequency n_sim random_state in
  let '(_, st1) := np_random_seed (random_state + 1) st in
  np_random_uniform (mc_p0 severity deductible) 1 (npx.sum_nat fqsample) st1.

(** [svsample] after the deductible and the cover are applied. *)
Definition mc_svsample (severity : Severity) (frequency : Frequency)
           (cover deductible : R) (n_sim : nat) (random_state : Z) (st : rng)
  : list R * rng :=
  let '(us, st2) := mc_uniforms severity frequency deductible n_sim random_state st in
  let svsample := map (ppf (smodel severity)) us in
  (map (fun x => Rmin (x - deductible) cover) svsample, st2).

(** [cs]: the cumulative counts without the last one. *)
Definition mc_cs (frequency : Frequency) (n_sim : nat) (random_state : Z) : list nat :=
  npx.upto_pred n_sim (npx.cumsum_nat (mc_fqsample frequency n_sim random_state)).

(** [xsim]: one aggregate realization per piece of the split. *)
Definition mc_xsim (severity : Severity) (frequency : Frequency)
           (cover deductible : R) (n_sim : nat) (random_state : Z) (st : rng)
  : list R * rng :=
  let '(svsample, st2) :=
    mc_svsample severity frequency cover deductible n_sim random_state st in
  (map np.sum (npx.split svsample (mc_cs frequency n_sim random_state)), st2).

(** [mc_simulation], run from the state [st] of the global generator; the
    state it leaves is returned with the result. *)
Definition mc_simulation (severity : Severity) (frequency : Frequency)
           (cover deductible : R) (n_sim : nat) (random_state : Z) (st : rng)
  : Aggregate.t * rng :=
  let '(xsim, st2) :=
    mc_xsim severity frequency cover deductible n_sim random_state st in
  let x_ := npx.unique xsim in
  let cdf_ := map (ecdf xsim) x_ in
  ({| Aggregate.cdf := cdf_; Aggregate.nodes := x_ |}, st2).

End Aggregation.

(* ------------------------------------------------------------------ *)
(** * A concrete severity: the uniform law on [0, 10] *)

Definition uniform10_cdf (x : R) : R :=
  if Rle_dec x 0 then 0 else if Rle_dec 10 x then 1 else x / 10.

Definition uniform10 : Severity :=
  {| smodel := {| cdf := uniform10_cdf;
                  ppf := fun p => 10 * p;
                  lev := fun x => if Rle_dec x 0 then 0
                                  else if Rle_dec 10 x then 5
                                  else x - x * x / 20;
                  den := fun low _ => 1 - uniform10_cdf low |};
     loc := 0 |}.

(* ------------------------------------------------------------------ *)
(** * Vocabulary of the statements *)

(** One entry for a finite exit point, none for an infinite one. *)
Definition extra (exit_point : bound) : nat :=
  if is_finite exit_point then 1%nat else 0%nat.

(** What the calculator needs of a cdf: non-decreasing, with values in
    [[0, 1]]. *)
Definition valid_cdf (F : R -> R) : Prop :=
  (forall x y, x <= y -> F x <= F y) /\ (forall x, 0 <= F x <= 1).




(** The masses after the optional normalization, and the clipped
    cumulative sum of them: the [cdf] both deterministic methods return. *)
Definition normalized (g : list R) (normalize : bool) : list R :=
  if normalize then map (fun x => x / np.sum g) g else g.

Definition clipped_cumsum (g : list R) (normalize : bool) : list R :=
  np.minimum (np.cumsum (normalized g normalize)) 1.

(** The record the logger receives for a shortfall. *)
Definition shortfall_warning (z : R) : diagnostic :=
  {| diag_level := WARNING;
     diag_template := Messages.shortfall_template;
     diag_argument := z |}.

(** The logger after a run that started from [lg] and ended with the last
    cumulative probability [z]: one warning carrying [z] when [z] is short of
    1 by more than [tol], nothing new otherwise. *)
Definition shortfall_policy (tol : R) (lg lg' : list diagnostic) (z : R) : Prop :=
  (1 - z > tol -> lg' = lg ++ [shortfall_warning z])
  /\ (1 - z <= tol -> lg' = lg).

(* ------------------------------------------------------------------ *)
(** * The aggregations as the specification words them

    These definitions follow the specification, index by index; the
    theorems below compare them with the array programs above. *)

Module Spec.

(** The tilting parameter: the explicit value, [20 / m] by default, [0]
    without tilting. *)
Definition theta (tilt : bool) (tilt_value : option R) (m : nat) : R :=
  if tilt then
    match tilt_value with
    | Some v => v
    | None => 20 / INR m
    end
  else 0.

(** [exp(+theta i)] times the real part of the inverse transform of the
    pgf of the forward transform of [exp(-theta k) fj[k]], [k = 0..m-1],
    with [fj] read as zero beyond its end. *)
Definition fft_g (fft ifft : list C -> list C) (frequency : Frequency)
           (fj0 : list R) (m : nat) (th : R) (i : nat) : R :=
  exp (th * INR i)
  * Cre (nth i
           (ifft (map (pgf (fmodel frequency))
                      (fft (map (fun k => RtoC (exp (- th * INR k) * nth k fj0 0))
                                (seq 0 m)))))
           (RtoC 0)).

(** The mass at [i], divided by the total over [0..m-1] when normalized. *)
Definition mass (g : nat -> R) (m : nat) (normalize : bool) (i : nat) : R :=
  if normalize then g i / sum_f_R0 g (m - 1) else g i.

(** The cdf at [k]: the masses up to [k] summed, clipped at 1. *)
Definition cdf_at (g : nat -> R) (m : nat) (normalize : bool) (k : nat) : R :=
  Rmin (sum_f_R0 (mass g m normalize) k) 1.

(** The Panjer sum for index [j] over an accumulated sequence [h]:
    the sum over [i = 1..j] of [(a + b i / j) fj[i] h[j - i]]. *)
Definition panjer_sum (a b : R) (fj0 : list R) (h : nat -> R) (j : nat) : R :=
  sum_f 1 j (fun i => (a + b * INR i / INR j) * nth i fj0 0 * h (j - i)%nat).

(** The final mass at [j]: [(pmf(1) - (a + b) p0) fj[j]] combined with the
    accumulated value, over [1 - a fj[0]]. *)
Definition panjer_g (a b p0 fpmf : R) (fj0 : list R) (h : nat -> R) (j : nat) : R :=
  ((fpmf - (a + b) * p0) * nth j fj0 0 + h j) / (1 - a * nth 0 fj0 0).

(** The severity draws grouped left to right by the claim counts: the first
    [c0] draws, then the next [c1], and so on. *)
Fixpoint groups (counts : list nat) (draws : list R) : list (list R) :=
  match counts with
  | [] => []
  | c :: rest => firstn c draws :: groups rest (skipn c draws)
  end.

End Spec.

(* ------------------------------------------------------------------ *)
(** * Concrete models for the examples *)

(** The discrete Fourier transform and its inverse, by their defining
    sums. *)
Module Dft.

Definition Cadd (z w : C) : C := (fst z + fst w, snd z + snd w).
Definition Cmul (z w : C) : C :=
  (fst z * fst w - snd z * snd w, fst z * snd w + snd z * fst w).
Definition cis (t : R) : C := (cos t, sin t).
Definition Csum (zs : list C) : C := fold_right Cadd (RtoC 0) zs.

Definition dft (xs : list C) : list C :=
  let n := length xs in
  map (fun k =>
         Csum (map (fun j => Cmul (nth j xs (RtoC 0))
                                  (cis (- (2 * PI * INR k * INR j / INR n))))
                   (seq 0 n)))
      (seq 0 n).

Definition idft (ys : list C) : list C :=
  let n := length ys in
  map (fun j =>
         Cmul (RtoC (/ INR n))
              (Csum (map (fun k => Cmul (nth k ys (RtoC 0))
                                        (cis (2 * PI * INR k * INR j / INR n)))
                         (seq 0 n))))
      (seq 0 n).

End Dft.

(** A geometric claim count, [P(N = k) = (1/2)^(k+1)]: its pgf is
    [1 / (2 - z)] and its Panjer coefficients are [a = 1/2], [b = 0]. The
    sampler is a fixed pattern of counts driven by the seed. *)
Definition geometric : Frequency :=
  {| fmodel :=
       {| pgf := fun z =>
                   let m2 := (2 - fst z) * (2 - fst z) + snd z * snd z in
                   ((2 - fst z) / m2, snd z / m2);
          pmf := fun k => (1 / 2) ^ (S k);
          rvs := fun n seed =>
                   map (fun i => Z.to_nat ((seed + Z.of_nat i) mod 3)) (seq 0 n) |};
     abp0g0 := fun fj0 => (1 / 2, 0, 1 / 2, [1 / (2 - nth 0 fj0 0)]) |}.

(** A discretized severity with two equally likely nodes. *)
Definition two_point : Discretized :=
  {| nodes := [0; 1]; fj := [1 / 2; 1 / 2] |}.

(** A zero-modified binomial claim count: no claim with probability
    [9/10], otherwise the binomial law of 4 trials with success chance [1/2]
    conditioned on at least one claim, so [P(N = k) = 8/75 * C(4, k) / 16]
    for [k = 1..4]. From [k = 2] on, [P(N = k) = (a + b / k) P(N = k - 1)]
    with [a = -1], [b = 5]; [p0] is [P(N = 0)] and [g0] is the pgf at the
    severity mass in zero. *)
Definition zero_modified_binomial : Frequency :=
  {| fmodel :=
       {| pgf := fun z =>
                   let h := Dft.Cmul (RtoC (1 / 2)) (Dft.Cadd (RtoC 1) z) in
                   let w := Dft.Cmul (Dft.Cmul h h) (Dft.Cmul h h) in
                   Dft.Cadd (RtoC (9 / 10 - 8 / 75 * (1 / 16)))
                            (Dft.Cmul (RtoC (8 / 75)) w);
          pmf := fun k =>
                   match k with
                   | 0%nat => 9 / 10
                   | 1%nat => 2 / 75
                   | 2%nat => 1 / 25
                   | 3%nat => 2 / 75
                   | 4%nat => 1 / 150
                   | _ => 0
                   end;
          rvs := fun n seed =>
                   map (fun i => Z.to_nat ((seed + Z.of_nat i) mod 5)) (seq 0 n) |};
     abp0g0 := fun fj0 =>
                 (-1, 5, 9 / 10,
                  [9 / 10 + 8 / 75 * (((1 + nth 0 fj0 0) / 2) ^ 4 - 1 / 16)]) |}.

(** A generator whose state is a counter and whose uniform draws are evenly
    spread over [[low, high)]. *)
Definition counter_uniform (low high : R) (size : nat) (st : Z) : list R * Z :=
  (map (fun i => low + (high - low) * INR (S i) / INR (S (S size))) (seq 0 size),
   (st + Z.of_nat size)%Z).

(* ------------------------------------------------------------------ *)
(** * Facts about the array operations *)

Section ArrayFacts.

Lemma zip_with_length (f : R -> R -> R) (xs ys : list R) :
  length (np.zip_with f xs ys) = Nat.min (length xs) (length ys).
Proof.
  revert ys; induction xs as [|x xs IH]; intros [|y ys]; simpl; auto.
Qed.

Lemma removelast_length_pred {A : Type} (l : list A) :
  length (removelast l) = (length l - 1)%nat.
Proof.
  induction l as [|x [|y l] IH]; simpl in *; auto.
  rewrite IH. lia.
Qed.

Lemma tl_length_pred {A : Type} (l : list A) :
  length (tl l) = (length l - 1)%nat.
Proof. destruct l; simpl; lia. Qed.

Lemma arange_length (lo hi : nat) : length (np.arange lo hi) = (hi - lo)%nat.
Proof. unfold np.arange. apply length_seq. Qed.

Lemma sum_app (xs ys : list R) : np.sum (xs ++ ys) = np.sum xs + np.sum ys.
Proof.
  unfold np.sum. induction xs as [|x xs IH]; simpl; [lra|]. rewrite IH. lra.
Qed.

Lemma sum_scale (c : R) (xs : list R) :
  np.sum (map (fun x => x / c) xs) = np.sum xs / c.
Proof.
  unfold np.sum, Rdiv. induction xs as [|x xs IH]; simpl; [lra|].
  rewrite IH. lra.
Qed.

(** The consecutive differences of an array telescope. *)
Lemma sum_differences (l : list R) (d : R) :
  l <> [] ->
  np.sum (np.zip_with Rminus (tl l) (removelast l)) = last l d - hd d l.
Proof.
  destruct l as [|x l]; [congruence|intros _].
  revert x; induction l as [|y l IH]; intro x.
  - simpl. unfold np.sum. simpl. lra.
  - specialize (IH y).
    change (tl (x :: y :: l)) with (y :: l).
    change (removelast (x :: y :: l)) with (x :: removelast (y :: l)).
    change (last (x :: y :: l) d) with (last (y :: l) d).
    destruct l as [|z l].
    + simpl. unfold np.sum. simpl. lra.
    + change (removelast (y :: z :: l)) with (y :: removelast (z :: l)) in *.
      simpl np.zip_with in *. unfold np.sum in *. simpl fold_right in *.
      simpl hd in *. simpl tl in IH. lra.
Qed.

Lemma map_seq_last {A : Type} (f : nat -> A) (lo n : nat) (d : A) :
  last (map f (seq lo (S n))) d = f (lo + n)%nat.
Proof.
  rewrite seq_S, map_app. simpl. apply last_last.
Qed.

End ArrayFacts.

(* ------------------------------------------------------------------ *)
(** * Discretization: shapes of the results *)

Section DiscretizationShapes.

Variable severity : Severity.
Variable deductible discr_step : R.
Variable n_discr_nodes : nat.

Lemma grid_length :
  length (grid severity discr_step n_discr_nodes) = n_discr_nodes.
Proof. unfold grid. rewrite length_map, arange_length. lia. Qed.

Lemma increments_length (Fn : list R) :
  length (increments severity deductible Fn) = (length Fn - 1)%nat.
Proof.
  unfold increments.
  rewrite length_map, zip_with_length, tl_length_pred, removelast_length_pred.
  lia.
Qed.

Lemma extend_grid_returns (exit_point : bound) (nd : list R) :
  nd <> [] ->
  exists nd', extend_grid exit_point discr_step nd = Return nd'
              /\ length nd' = (length nd + extra exit_point)%nat.
Proof.
  intros Hne. unfold extend_grid, extra.
  destruct exit_point as [u|]; simpl.
  - destruct nd as [|x nd]; [congruence|]. simpl.
    eexists; split; [reflexivity|]. simpl. rewrite length_app. simpl. lia.
  - eexists; split; [reflexivity|]. lia.
Qed.

Lemma grid_nonempty :
  (1 <= n_discr_nodes)%nat -> grid severity discr_step n_discr_nodes <> [].
Proof.
  intros Hn Hnil. apply (f_equal (@length R)) in Hnil.
  rewrite grid_length in Hnil. simpl in Hnil. lia.
Qed.

(** X1. For [n_discr_nodes >= 1], [mass_dispersal], [lower_discretization]
    and [local_moments] return nodes and masses of one length,
    [n_discr_nodes] plus the extra entry
    of a finite exit point; the adjuster returns that extra entry alone. *)
Lemma sibling_shapes (exit_point : bound) :
  (1 <= n_discr_nodes)%nat ->
  (exists r, mass_dispersal severity deductible exit_point discr_step n_discr_nodes
             = Return r
             /\ length (nodes r) = (n_discr_nodes + extra exit_point)%nat
             /\ length (fj r) = (n_discr_nodes + extra exit_point)%nat)
  /\ (exists r, lower_discretization severity deductible exit_point discr_step
                                     n_discr_nodes = Return r
             /\ length (nodes r) = (n_discr_nodes + extra exit_point)%nat
             /\ length (fj r) = (n_discr_nodes + extra exit_point)%nat)
  /\ (exists r, local_moments severity deductible exit_point discr_step
                              n_discr_nodes = Return r
             /\ length (nodes r) = (n_discr_nodes + extra exit_point)%nat
             /\ length (fj r) = (n_discr_nodes + extra exit_point)%nat)
  /\ length (upper_discr_point_prob_adjuster severity deductible exit_point
                                             discr_step)
     = extra exit_point.
Proof.
  intros Hn.
  destruct (extend_grid_returns exit_point _ (grid_nonempty Hn)) as (nd & Hnd & Hlen).
  rewrite grid_length in Hlen.
  repeat split.
  - unfold mass_dispersal. rewrite Hnd. simpl.
    eexists; split; [reflexivity|]. simpl. split; [exact Hlen|].
    destruct exit_point; unfold extra; simpl;
      rewrite ?length_app; simpl; rewrite increments_length, !length_map, arange_length;
      lia.
  - unfold lower_discretization. rewrite Hnd. simpl.
    eexists; split; [reflexivity|]. simpl. split; [exact Hlen|].
    destruct exit_point; unfold extra; simpl;
      rewrite ?length_app; simpl; rewrite increments_length, !length_map, arange_length;
      lia.
  - unfold local_moments. rewrite Hnd. simpl.
    eexists; split; [reflexivity|]. simpl. split; [exact Hlen|].
    rewrite length_app. simpl.
    rewrite length_map, !zip_with_length, !length_map, !arange_length.
    destruct exit_point; unfold extra; simpl; lia.
  - destruct exit_point; reflexivity.
Qed.

(** C1. In [upper_discretization] the mass vector gets the extra entry of a
    finite exit point and the node grid does not: with a finite exit point
    the result has [n_discr_nodes + 1] masses on [n_discr_nodes] nodes. With
    an infinite exit point both have [n_discr_nodes] entries. *)
Theorem upper_discretization_shape (exit_point : bound) :
  let r := upper_discretization severity deductible exit_point discr_step
                                n_discr_nodes in
  length (nodes r) = n_discr_nodes
  /\ length (fj r) = (n_discr_nodes + extra exit_point)%nat.
Proof.
  simpl. split.
  - apply grid_length.
  - destruct exit_point; unfold extra; simpl;
      rewrite ?length_app; simpl; rewrite increments_length, !length_map, arange_length;
      lia.
Qed.

End DiscretizationShapes.

(** The shapes at a concrete call with a finite exit point: two nodes, three
    masses. *)
Lemma upper_discretization_finite_exit_mismatch :
  let r := upper_discretization uniform10 0 (Finite 2) 1 2 in
  length (nodes r) = 2%nat /\ length (fj r) = 3%nat.
Proof. simpl. split; reflexivity. Qed.

(* ------------------------------------------------------------------ *)
(** * Discretization: total mass *)

Section DiscretizationMass.

Variable severity : Severity.
Variable deductible discr_step : R.

Let F : R -> R := cdf (smodel severity).
Let L : R -> R := lev (smodel severity).

Lemma sum_increments (q : nat -> R) (lo k : nat) :
  np.sum (increments severity deductible (map q (seq lo (S k))))
  = (q (lo + k)%nat - q lo) / (1 - F deductible).
Proof.
  unfold increments. rewrite sum_scale.
  rewrite (sum_differences _ 0) by (simpl; congruence).
  rewrite map_seq_last. reflexivity.
Qed.

(** Second differences telescope to a difference of first differences. *)
Lemma sum_second_differences (A : nat -> R) (k s : nat) :
  np.sum (np.zip_with Rminus
            (np.zip_with Rminus (map (fun x => 2 * x) (map A (seq (S s) k)))
                                (map A (seq s k)))
            (map A (seq (S (S s)) k)))
  = (A (S s) - A s) - (A (S (s + k)) - A (s + k)%nat).
Proof.
  revert s; induction k as [|k IH]; intro s.
  - simpl. unfold np.sum. simpl. rewrite Nat.add_0_r. lra.
  - simpl. unfold np.sum in *. simpl. rewrite IH.
    replace (S s + k)%nat with (s + S k)%nat by lia. lra.
Qed.

Variable n_discr_nodes : nat.
Hypothesis nodes_positive : (1 <= n_discr_nodes)%nat.

(** The exit point that closes the grid: [deductible + n * discr_step]. *)
Let u : R := deductible + INR n_discr_nodes * discr_step.

Lemma mass_dispersal_total (exit_point : bound) :
  F deductible <> 1 ->
  exists r, mass_dispersal severity deductible exit_point discr_step n_discr_nodes
            = Return r
    /\ np.sum (fj r)
       = match exit_point with
         | Finite v =>
             1 + (F (u - discr_step / 2) - F (v - discr_step / 2))
                 / (1 - F deductible)
         | Infinity =>
             1 - (1 - F (u - discr_step / 2)) / (1 - F deductible)
         end.
Proof.
  intros HF.
  destruct (extend_grid_returns discr_step exit_point _
              (grid_nonempty severity discr_step n_discr_nodes nodes_positive))
    as (nd & Hnd & _).
  unfold mass_dispersal. rewrite Hnd. simpl.
  eexists; split; [reflexivity|]. simpl.
  destruct n_discr_nodes as [|k] eqn:E; [lia|].
  unfold np.arange. rewrite Nat.sub_0_r, map_map.
  assert (Hu : u - discr_step / 2
               = deductible + (INR k + 5 / 10) * discr_step).
  { unfold u. rewrite S_INR. lra. }
  assert (H0 : deductible + (INR 0 + 5 / 10) * discr_step
               = deductible + discr_step / 2) by (simpl; lra).
  fold F. rewrite Hu.
  destruct exit_point as [v|].
  - change (?a :: ?l) with ([a] ++ l). rewrite !sum_app.
    rewrite (sum_increments (fun j => F (deductible + (INR j + 5 / 10) * discr_step))).
    rewrite H0. simpl Nat.add. unfold np.sum. simpl. field. lra.
  - change (?a :: ?l) with ([a] ++ l). rewrite !sum_app.
    rewrite (sum_increments (fun j => F (deductible + (INR j + 5 / 10) * discr_step))).
    rewrite H0. simpl Nat.add. unfold np.sum. simpl. field. lra.
Qed.

Lemma lower_discretization_total (exit_point : bound) :
  F deductible <> 1 ->
  exists r, lower_discretization severity deductible exit_point discr_step
                                 n_discr_nodes = Return r
    /\ np.sum (fj r)
       = match exit_point with
         | Finite v =>
             1 + (F (u - discr_step) - F (v - discr_step)) / (1 - F deductible)
         | Infinity => 1 - (1 - F (u - discr_step)) / (1 - F deductible)
         end.
Proof.
  intros HF.
  destruct (extend_grid_returns discr_step exit_point _
              (grid_nonempty severity discr_step n_discr_nodes nodes_positive))
    as (nd & Hnd & _).
  unfold lower_discretization. rewrite Hnd. simpl.
  eexists; split; [reflexivity|]. simpl.
  destruct n_discr_nodes as [|k] eqn:E; [lia|].
  unfold np.arange. rewrite Nat.sub_0_r, map_map.
  assert (Hu : u - discr_step = deductible + INR k * discr_step).
  { unfold u. rewrite S_INR. lra. }
  assert (H0 : deductible + INR 0 * discr_step = deductible) by (simpl; lra).
  fold F. rewrite Hu.
  destruct exit_point as [v|].
  - change (?a :: ?l) with ([a] ++ l). rewrite !sum_app.
    rewrite (sum_increments (fun j => F (deductible + INR j * discr_step))).
    rewrite H0. simpl Nat.add. unfold np.sum. simpl. field. lra.
  - change (?a :: ?l) with ([a] ++ l). rewrite !sum_app.
    rewrite (sum_increments (fun j => F (deductible + INR j * discr_step))).
    rewrite H0. simpl Nat.add. unfold np.sum. simpl. field. lra.
Qed.

Lemma upper_discretization_total (exit_point : bound) :
  F deductible <> 1 ->
  np.sum (fj (upper_discretization severity deductible exit_point discr_step
                                   n_discr_nodes))
  = match exit_point with
    | Finite v => 1 + (F u - F v) / (1 - F deductible)
    | Infinity => 1 - (1 - F u) / (1 - F deductible)
    end.
Proof.
  intros HF. unfold upper_discretization. simpl.
  unfold np.arange. rewrite Nat.sub_0_r, map_map.
  replace (n_discr_nodes + 1)%nat with (S n_discr_nodes) by lia.
  assert (H0 : deductible + INR 0 * discr_step = deductible) by (simpl; lra).
  fold F.
  destruct exit_point as [v|].
  - rewrite sum_app.
    rewrite (sum_increments (fun j => F (deductible + INR j * discr_step))).
    rewrite H0. simpl Nat.add. unfold np.sum, u. simpl. field. lra.
  - rewrite (sum_increments (fun j => F (deductible + INR j * discr_step))).
    rewrite H0. simpl Nat.add. unfold u. field. lra.
Qed.

(** The normalizer of [local_moments]. *)
Let den_ : R :=
  discr_step * den (smodel severity) deductible (loc severity).

Lemma local_moments_total (exit_point : bound) :
  den_ <> 0 ->
  exists r, local_moments severity deductible exit_point discr_step n_discr_nodes
            = Return r
    /\ np.sum (fj r)
       = match exit_point with
         | Finite v =>
             1 + ((L (v - loc severity) - L (v - loc severity - discr_step))
                  - (L (u - loc severity) - L (u - loc severity - discr_step)))
                 / den_
         | Infinity =>
             1 - (L (u - loc severity) - L (u - loc severity - discr_step)) / den_
         end.
Proof.
  intros Hden.
  destruct (extend_grid_returns discr_step exit_point _
              (grid_nonempty severity discr_step n_discr_nodes nodes_positive))
    as (nd & Hnd & _).
  unfold local_moments. rewrite Hnd. simpl.
  eexists; split; [reflexivity|]. simpl.
  destruct n_discr_nodes as [|k] eqn:E; [lia|].
  unfold np.arange.
  replace (S k - 1)%nat with k by lia.
  replace (S k - 1 - 0)%nat with k by lia.
  replace (S k + 1 - 2)%nat with k by lia.
  fold L. fold den_. rewrite Nat.sub_0_r.
  set (A := fun j : nat => L (deductible - loc severity + INR j * discr_step)).
  change (?a :: ?l) with ([a] ++ l). rewrite !sum_app, sum_scale.
  rewrite (sum_second_differences A k 0).
  assert (Hu1 : L (u - loc severity) = A (S k))
    by (unfold A, u; f_equal; lra).
  assert (Hu0 : L (u - loc severity - discr_step) = A k)
    by (unfold A, u; f_equal; rewrite S_INR; lra).
  assert (HA0 : L (deductible - loc severity) = A 0%nat)
    by (unfold A; f_equal; simpl; lra).
  assert (HA1 : L (deductible + discr_step - loc severity) = A 1%nat)
    by (unfold A; f_equal; simpl; lra).
  rewrite Hu0, Hu1, HA1, HA0.
  simpl Nat.add.
  destruct exit_point as [v|]; unfold upper_discr_point_prob_adjuster;
    fold L; fold den_; unfold np.sum; simpl; field; exact Hden.
Qed.

End DiscretizationMass.

Lemma uniform10_cdf_valid : valid_cdf uniform10_cdf.
Proof.
  unfold valid_cdf, uniform10_cdf. split.
  - intros x y Hxy.
    destruct (Rle_dec x 0), (Rle_dec y 0), (Rle_dec 10 x), (Rle_dec 10 y); lra.
  - intros x. destruct (Rle_dec x 0), (Rle_dec 10 x); lra.
Qed.

Lemma uniform10_cdf_inside (x : R) : 0 <= x <= 10 -> uniform10_cdf x = x / 10.
Proof.
  intros Hx. unfold uniform10_cdf.
  destruct (Rle_dec x 0), (Rle_dec 10 x); lra.
Qed.

(** C4, as amended. When the exit point is finite and closes the grid,
    [exit_point = deductible + n_discr_nodes * discr_step], the masses that
    [mass_dispersal], [lower_discretization], [upper_discretization] and
    [local_moments] return sum to 1 (in exact arithmetic), hence differ from
    1 by no more than any tolerance [0 <= tol]. *)
Theorem aligned_exit_total_mass
        (severity : Severity) (deductible discr_step : R) (n_discr_nodes : nat)
        (tol : R) :
  0 <= tol ->
  0 < discr_step ->
  (1 <= n_discr_nodes)%nat ->
  cdf (smodel severity) deductible <> 1 ->
  den (smodel severity) deductible (loc severity) <> 0 ->
  let exit_point := Finite (deductible + INR n_discr_nodes * discr_step) in
  (exists r, mass_dispersal severity deductible exit_point discr_step n_discr_nodes
             = Return r /\ Rabs (np.sum (fj r) - 1) <= tol)
  /\ (exists r, lower_discretization severity deductible exit_point discr_step
                                     n_discr_nodes
                = Return r /\ Rabs (np.sum (fj r) - 1) <= tol)
  /\ Rabs (np.sum (fj (upper_discretization severity deductible exit_point
                                            discr_step n_discr_nodes)) - 1) <= tol
  /\ (exists r, local_moments severity deductible exit_point discr_step n_discr_nodes
                = Return r /\ Rabs (np.sum (fj r) - 1) <= tol).
Proof.
  intros Htol Hstep Hn HF Hden exit_point.
  assert (Hzero : forall s, s = 1 -> Rabs (s - 1) <= tol).
  { intros s ->. replace (1 - 1) with 0 by lra. rewrite Rabs_R0. exact Htol. }
  repeat split.
  - destruct (mass_dispersal_total severity deductible discr_step n_discr_nodes
                                   Hn exit_point HF) as (r & Hr & Hs).
    exists r. split; [exact Hr|]. apply Hzero. rewrite Hs. simpl. field. lra.
  - destruct (lower_discretization_total severity deductible discr_step n_discr_nodes
                                         Hn exit_point HF) as (r & Hr & Hs).
    exists r. split; [exact Hr|]. apply Hzero. rewrite Hs. simpl. field. lra.
  - apply Hzero.
    rewrite (upper_discretization_total severity deductible discr_step n_discr_nodes
                                        Hn exit_point HF).
    simpl. field. lra.
  - assert (Hd : discr_step * den (smodel severity) deductible (loc severity) <> 0).
    { apply Rmult_integral_contrapositive_currified; lra. }
    destruct (local_moments_total severity deductible discr_step n_discr_nodes
                                  Hn exit_point Hd) as (r & Hr & Hs).
    exists r. split; [exact Hr|]. apply Hzero. rewrite Hs. simpl. field.
    split; lra.
Qed.

Lemma aligned_exit_total_mass_witness :
  let exit_point := Finite (0 + INR 2 * 1) in
  let tol := 1 / 1000000 in
  (exists r, mass_dispersal uniform10 0 exit_point 1 2
             = Return r /\ Rabs (np.sum (fj r) - 1) <= tol)
  /\ (exists r, lower_discretization uniform10 0 exit_point 1 2
                = Return r /\ Rabs (np.sum (fj r) - 1) <= tol)
  /\ Rabs (np.sum (fj (upper_discretization uniform10 0 exit_point 1 2)) - 1) <= tol
  /\ (exists r, local_moments uniform10 0 exit_point 1 2
                = Return r /\ Rabs (np.sum (fj r) - 1) <= tol).
Proof.
  apply (aligned_exit_total_mass uniform10 0 1 2 (1 / 1000000)).
  - lra.
  - lra.
  - lia.
  - simpl. rewrite uniform10_cdf_inside; lra.
  - simpl. rewrite uniform10_cdf_inside; lra.
Defined.

(** With an infinite exit point the masses of [mass_dispersal] stop at the
    last bucket boundary: on the uniform law on [[0, 10]], one node of step 1
    from deductible 0 carries mass [1/20] in all. *)
Lemma total_mass_counterexample :
  valid_cdf (cdf (smodel uniform10))
  /\ mass_dispersal uniform10 0 Infinity 1 1
     = Return {| nodes := [0]; fj := [1 / 20] |}
  /\ np.sum [1 / 20] = 1 / 20
  /\ forall tol, tol < 19 / 20 -> ~ Rabs (np.sum [1 / 20] - 1) <= tol.
Proof.
  split; [exact uniform10_cdf_valid|].
  assert (Hs : np.sum [1 / 20] = 1 / 20) by (unfold np.sum; simpl; lra).
  split; [|split; [exact Hs|]].
  - unfold mass_dispersal, grid. simpl.
    rewrite (uniform10_cdf_inside (0 + 1 / 2)) by lra.
    rewrite (uniform10_cdf_inside 0) by lra.
    f_equal. f_equal; f_equal; field.
  - intros tol Htol. rewrite Hs.
    replace (1 / 20 - 1) with (- (19 / 20)) by lra.
    rewrite Rabs_Ropp, Rabs_pos_eq by lra. lra.
Qed.

(* ------------------------------------------------------------------ *)
(** * Entries of the arrays the aggregations build *)

Section EntryFacts.

Lemma zip_with_nth (f : R -> R -> R) (xs ys : list R) (i : nat) :
  (i < length xs)%nat -> (i < length ys)%nat ->
  nth i (np.zip_with f xs ys) 0 = f (nth i xs 0) (nth i ys 0).
Proof.
  revert ys i; induction xs as [|x xs IH]; intros [|y ys] [|i]; simpl;
    intros Hx Hy; try lia; auto.
  apply IH; lia.
Qed.

Lemma broadcast_same_length (f : R -> R -> R) (xs ys : list R) :
  length xs = length ys ->
  np.broadcast f xs ys = Return (np.zip_with f xs ys).
Proof.
  intros H. unfold np.broadcast. rewrite H, Nat.eqb_refl. reflexivity.
Qed.

Lemma cumsum_from_length (acc : R) (xs : list R) :
  length (np.cumsum_from acc xs) = length xs.
Proof. revert acc; induction xs; intro; simpl; auto. Qed.

Lemma cumsum_from_nth (xs : list R) :
  forall (acc : R) (k : nat), (k < length xs)%nat ->
    nth k (np.cumsum_from acc xs) 0
    = acc + sum_f_R0 (fun i => nth i xs 0) k.
Proof.
  induction xs as [|x xs IH]; intros acc k Hk; simpl in Hk; [lia|].
  destruct k as [|k]; simpl np.cumsum_from.
  - reflexivity.
  - change (nth (S k) ((acc + x) :: np.cumsum_from (acc + x) xs) 0)
      with (nth k (np.cumsum_from (acc + x) xs) 0).
    rewrite IH by lia.
    rewrite (decomp_sum (fun i => nth i (x :: xs) 0) (S k)) by lia.
    simpl. lra.
Qed.

Lemma cumsum_nth (xs : list R) (k : nat) :
  (k < length xs)%nat ->
  nth k (np.cumsum xs) 0 = sum_f_R0 (fun i => nth i xs 0) k.
Proof.
  intros Hk. unfold np.cumsum. rewrite cumsum_from_nth by exact Hk. lra.
Qed.

Lemma sum_as_series (xs : list R) :
  xs <> [] ->
  np.sum xs = sum_f_R0 (fun i => nth i xs 0) (length xs - 1).
Proof.
  induction xs as [|x xs IH]; [congruence|intros _].
  destruct xs as [|y xs].
  - unfold np.sum. simpl. lra.
  - change (np.sum (x :: y :: xs)) with (x + np.sum (y :: xs)).
    rewrite IH by congruence.
    replace (length (x :: y :: xs) - 1)%nat with (S (length (y :: xs) - 1))
      by (simpl; lia).
    rewrite (decomp_sum (fun i => nth i (x :: y :: xs) 0)) by lia.
    simpl. reflexivity.
Qed.

Lemma minimum_nth (xs : list R) (c : R) (k : nat) :
  (k < length xs)%nat ->
  nth k (np.minimum xs c) 0 = Rmin (nth k xs 0) c.
Proof.
  intros Hk. unfold np.minimum.
  rewrite (nth_indep _ 0 (Rmin 0 c)) by (rewrite length_map; exact Hk).
  apply (map_nth (fun x => Rmin x c)).
Qed.

Lemma map_nth_in_range {A : Type} (f : A -> R) (xs : list A) (d : A) (k : nat) :
  (k < length xs)%nat -> nth k (map f xs) 0 = f (nth k xs d).
Proof.
  intros Hk.
  rewrite (nth_indep _ 0 (f d)) by (rewrite length_map; exact Hk).
  apply map_nth.
Qed.

Lemma nonempty_of_length {A : Type} (xs : list A) :
  (1 <= length xs)%nat -> xs <> [].
Proof. destruct xs; simpl; [lia|congruence]. Qed.

Lemma arange_nth (lo hi k : nat) :
  (k < hi - lo)%nat -> nth k (np.arange lo hi) 0%nat = (lo + k)%nat.
Proof. intros Hk. unfold np.arange. apply seq_nth. exact Hk. Qed.

Lemma padded_nth (xs : list R) (p k : nat) :
  nth k (xs ++ repeat 0 p) 0 = nth k xs 0.
Proof.
  destruct (Nat.lt_ge_cases k (length xs)) as [H|H].
  - apply app_nth1. exact H.
  - rewrite app_nth2 by exact H. rewrite (nth_overflow xs) by exact H.
    apply nth_repeat.
Qed.

End EntryFacts.

(* ------------------------------------------------------------------ *)
(** * The common tail of the deterministic aggregations *)

Section Finish.

Variable PROB_TOLERANCE : R.

Lemma normalized_length (g : list R) (normalize : bool) :
  length (normalized g normalize) = length g.
Proof. destruct normalize; simpl; [apply length_map|reflexivity]. Qed.

Lemma clipped_cumsum_length (g : list R) (normalize : bool) :
  length (clipped_cumsum g normalize) = length g.
Proof.
  unfold clipped_cumsum, np.minimum, np.cumsum.
  rewrite length_map, cumsum_from_length. apply normalized_length.
Qed.

(** [finish] on a non-empty mass vector returns, and writes to the logger
    exactly when the last cumulative probability is short of 1 by more than
    the tolerance. *)
Lemma finish_returns (g : list R) (normalize : bool) (discr_step : R)
      (n : nat) (lg : list diagnostic) :
  g <> [] ->
  let z := last (clipped_cumsum g normalize) 0 in
  finish PROB_TOLERANCE g normalize discr_step n lg
  = (Return {| Aggregate.cdf := clipped_cumsum g normalize;
               Aggregate.nodes :=
                 map (fun i => discr_step * INR i) (np.arange 0 n) |},
     if Rgt_dec (1 - z) PROB_TOLERANCE then lg ++ [shortfall_warning z] else lg).
Proof.
  intros Hg z.
  assert (Hc : clipped_cumsum g normalize <> []).
  { intro H. apply (f_equal (@length R)) in H.
    rewrite clipped_cumsum_length in H. destruct g; simpl in H; congruence. }
  unfold finish, bind, lift, ret, logger_warning.
  fold (normalized g normalize). fold (clipped_cumsum g normalize).
  unfold np.item_last.
  destruct (clipped_cumsum g normalize) as [|c cs] eqn:E; [congruence|].
  fold z. destruct (Rgt_dec (1 - z) PROB_TOLERANCE); reflexivity.
Qed.

End Finish.

(* ------------------------------------------------------------------ *)
(** * The transform method *)

Section FastFourierTransform.

Variable PROB_TOLERANCE : R.
Variable fft ifft : list C -> list C.
Hypothesis fft_length : forall xs, length (fft xs) = length xs.
Hypothesis ifft_length : forall xs, length (ifft xs) = length xs.

Variable severity : Discretized.
Variable frequency : Frequency.
Variable n_aggr_dist_nodes : nat.
Variable tilt : bool.
Variable tilt_value : option R.

Hypothesis nodes_positive : (1 <= n_aggr_dist_nodes)%nat.
Hypothesis severity_fits : (length (fj severity) <= n_aggr_dist_nodes)%nat.

Let th : R := Spec.theta tilt tilt_value n_aggr_dist_nodes.

Lemma tilting_parameter_returns :
  tilting_parameter tilt tilt_value n_aggr_dist_nodes = Return th.
Proof.
  unfold tilting_parameter, th, Spec.theta, py_div.
  destruct tilt; [|reflexivity].
  destruct tilt_value; [reflexivity|].
  destruct n_aggr_dist_nodes; [lia|reflexivity].
Qed.

Lemma zero_pad_returns :
  zero_pad (fj severity) n_aggr_dist_nodes
  = Return (fj severity ++ repeat 0 (n_aggr_dist_nodes - length (fj severity))).
Proof.
  unfold zero_pad, np.repeat0.
  destruct (Z.ltb_spec (Z.of_nat n_aggr_dist_nodes - Z.of_nat (length (fj severity))) 0)
    as [H|H]; [lia|].
  simpl. do 3 f_equal. lia.
Qed.

Lemma zero_pad_length :
  length (fj severity ++ repeat 0 (n_aggr_dist_nodes - length (fj severity)))
  = n_aggr_dist_nodes.
Proof. rewrite length_app, repeat_length. lia. Qed.

Lemma exp_ramp_length (t : R) (n : nat) : length (exp_ramp t n) = n.
Proof. unfold exp_ramp. rewrite length_map, arange_length. lia. Qed.

Lemma exp_ramp_nth (t : R) (n i : nat) :
  (i < n)%nat -> nth i (exp_ramp t n) 0 = exp (t * INR i).
Proof.
  intros Hi. unfold exp_ramp.
  rewrite (map_nth_in_range (fun i => exp (t * INR i)) _ 0%nat)
    by (rewrite arange_length; lia).
  rewrite arange_nth by lia. reflexivity.
Qed.

(** The tilted, zero-padded severity, entry by entry. *)
Lemma tilted_entries :
  map RtoC
      (np.zip_with Rmult (exp_ramp (- th) n_aggr_dist_nodes)
         (fj severity ++ repeat 0 (n_aggr_dist_nodes - length (fj severity))))
  = map (fun k => RtoC (exp (- th * INR k) * nth k (fj severity) 0))
        (seq 0 n_aggr_dist_nodes).
Proof.
  apply (nth_ext _ _ (RtoC 0) (RtoC 0)).
  - rewrite !length_map, zip_with_length, exp_ramp_length, zero_pad_length,
      length_seq. lia.
  - intros k Hk.
    rewrite length_map, zip_with_length, exp_ramp_length, zero_pad_length in Hk.
    assert (Hk' : (k < n_aggr_dist_nodes)%nat) by lia.
    rewrite (map_nth RtoC _ 0).
    rewrite zip_with_nth
      by (rewrite ?exp_ramp_length, ?zero_pad_length; exact Hk').
    rewrite exp_ramp_nth, padded_nth by exact Hk'.
    rewrite (nth_indep _ (RtoC 0)
               ((fun k => RtoC (exp (- th * INR k) * nth k (fj severity) 0)) 0%nat))
      by (rewrite length_map, length_seq; exact Hk').
    rewrite (map_nth (fun k => RtoC (exp (- th * INR k) * nth k (fj severity) 0))).
    rewrite seq_nth by exact Hk'. reflexivity.
Qed.

(** The inverse-transformed sequence of the method. *)
Let back_transformed : list C :=
  ifft (map (pgf (fmodel frequency))
            (fft (map (fun k => RtoC (exp (- th * INR k) * nth k (fj severity) 0))
                      (seq 0 n_aggr_dist_nodes)))).

Lemma back_transformed_length : length back_transformed = n_aggr_dist_nodes.
Proof.
  unfold back_transformed.
  rewrite ifft_length, length_map, fft_length, length_map, length_seq.
  reflexivity.
Qed.

Lemma call_transform_nonempty (t : list C -> list C) (xs : list C) :
  xs <> [] -> call_transform t xs = Return (t xs).
Proof. destruct xs; [congruence|reflexivity]. Qed.

(** On inputs of fitting sizes the transform method computes its masses
    without raising. *)
Lemma fft_masses_returns :
  fft_masses fft ifft severity frequency n_aggr_dist_nodes tilt tilt_value
  = Return (np.zip_with Rmult (exp_ramp th n_aggr_dist_nodes)
                        (map Cre back_transformed)).
Proof.
  unfold fft_masses.
  rewrite tilting_parameter_returns. cbn [obind].
  rewrite zero_pad_returns. cbn [obind].
  rewrite broadcast_same_length
    by (rewrite exp_ramp_length, zero_pad_length; reflexivity).
  cbn [obind]. rewrite tilted_entries.
  rewrite call_transform_nonempty
    by (apply nonempty_of_length; rewrite length_map, length_seq; lia).
  cbn [obind].
  rewrite call_transform_nonempty
    by (apply nonempty_of_length;
        rewrite length_map, fft_length, length_map, length_seq; lia).
  cbn [obind]. fold back_transformed.
  apply broadcast_same_length.
  rewrite exp_ramp_length, length_map, back_transformed_length. reflexivity.
Qed.

Lemma fft_masses_length :
  length (np.zip_with Rmult (exp_ramp th n_aggr_dist_nodes)
                      (map Cre back_transformed)) = n_aggr_dist_nodes.
Proof.
  rewrite zip_with_length, exp_ramp_length, length_map, back_transformed_length.
  lia.
Qed.

Lemma fft_masses_nth (i : nat) :
  (i < n_aggr_dist_nodes)%nat ->
  nth i (np.zip_with Rmult (exp_ramp th n_aggr_dist_nodes)
                     (map Cre back_transformed)) 0
  = Spec.fft_g fft ifft frequency (fj severity) n_aggr_dist_nodes th i.
Proof.
  intros Hi.
  rewrite zip_with_nth
    by (rewrite ?exp_ramp_length, ?length_map, ?back_transformed_length; exact Hi).
  rewrite exp_ramp_nth by exact Hi.
  rewrite (map_nth_in_range Cre _ (RtoC 0))
    by (rewrite back_transformed_length; exact Hi).
  reflexivity.
Qed.

End FastFourierTransform.

(* ------------------------------------------------------------------ *)
(** * The cdf, entry by entry *)

Section CdfEntries.

Variable g : list R.
Variable gs : nat -> R.
Variable m : nat.
Variable normalize : bool.

Hypothesis g_length : length g = m.
Hypothesis g_entries : forall i, (i < m)%nat -> nth i g 0 = gs i.
Hypothesis m_positive : (1 <= m)%nat.

Lemma sum_of_entries : np.sum g = sum_f_R0 gs (m - 1).
Proof.
  rewrite sum_as_series by (destruct g; simpl in *; [lia|congruence]).
  rewrite g_length. apply sum_eq. intros i Hi. apply g_entries. lia.
Qed.

Lemma normalized_nth (i : nat) :
  (i < m)%nat -> nth i (normalized g normalize) 0 = Spec.mass gs m normalize i.
Proof.
  intros Hi. unfold normalized, Spec.mass. destruct normalize.
  - rewrite (map_nth_in_range (fun x => x / np.sum g) g 0) by lia.
    rewrite g_entries by exact Hi. rewrite sum_of_entries. reflexivity.
  - apply g_entries. exact Hi.
Qed.

Lemma clipped_cumsum_nth (k : nat) :
  (k < m)%nat ->
  nth k (clipped_cumsum g normalize) 0 = Spec.cdf_at gs m normalize k.
Proof.
  intros Hk. unfold clipped_cumsum, Spec.cdf_at.
  rewrite minimum_nth
    by (unfold np.cumsum; rewrite cumsum_from_length, normalized_length; lia).
  rewrite cumsum_nth by (rewrite normalized_length; lia).
  f_equal. apply sum_eq. intros i Hi. apply normalized_nth. lia.
Qed.

End CdfEntries.

(* ------------------------------------------------------------------ *)
(** * The recursion *)

Section PanjerLoop.

Variables a b : R.
Variable fj1 : list R.

(** The value with index [t] in an accumulator that is kept newest
    first. *)
Let at_index (g : list R) (t : nat) : R := nth t (rev g) 0.

Lemma panjer_sum_ext (h h' : nat -> R) (j : nat) :
  (1 <= j)%nat ->
  (forall t, (t < j)%nat -> h t = h' t) ->
  Spec.panjer_sum a b fj1 h j = Spec.panjer_sum a b fj1 h' j.
Proof.
  intros Hj H. unfold Spec.panjer_sum, sum_f. apply sum_eq. intros i Hi.
  rewrite H by lia. reflexivity.
Qed.

Lemma at_index_old (v : R) (g : list R) (t : nat) :
  (t < length g)%nat -> at_index (v :: g) t = at_index g t.
Proof.
  intros Ht. unfold at_index. simpl rev.
  apply app_nth1. rewrite length_rev. exact Ht.
Qed.

Lemma at_index_new (v : R) (g : list R) :
  at_index (v :: g) (length g) = v.
Proof.
  unfold at_index. simpl rev.
  rewrite app_nth2 by (rewrite length_rev; lia).
  rewrite length_rev, Nat.sub_diag. reflexivity.
Qed.

Lemma slice_all (g : list R) : np.slice 0 (length g) g = g.
Proof. unfold np.slice. simpl. rewrite Nat.sub_0_r. apply firstn_all. Qed.

Lemma slice_length (lo hi : nat) (xs : list R) :
  (hi <= length xs)%nat -> length (np.slice lo hi xs) = (hi - lo)%nat.
Proof.
  intros H. unfold np.slice. rewrite length_firstn, length_skipn. lia.
Qed.

Lemma slice_nth (lo hi t : nat) (xs : list R) :
  (t < hi - lo)%nat -> nth t (np.slice lo hi xs) 0 = nth (lo + t) xs 0.
Proof.
  intros H. unfold np.slice.
  rewrite nth_firstn.
  destruct (Nat.ltb_spec t (hi - lo)) as [_|?]; [|lia].
  apply nth_skipn.
Qed.

(** One pass of the loop body, on an accumulator that holds the values
    with indices [0..j-1]. *)
Lemma panjer_step_returns (j : nat) (g : list R) :
  (1 <= j)%nat -> length g = j -> (j + 1 <= length fj1)%nat ->
  panjer_step a b fj1 j g
  = Return (Spec.panjer_sum a b fj1 (at_index g) j :: g).
Proof.
  intros Hj Hg Hf. unfold panjer_step.
  set (coef := map (fun i => a + b * INR i / INR j) (np.arange 1 (j + 1))).
  assert (Hc : length coef = j).
  { unfold coef. rewrite length_map, arange_length. lia. }
  assert (Hs : length (np.slice 1 (j + 1) fj1) = j).
  { rewrite slice_length by exact Hf. lia. }
  rewrite broadcast_same_length by congruence. cbn [obind].
  rewrite <- Hg at 2. rewrite slice_all.
  rewrite broadcast_same_length
    by (rewrite zip_with_length, Hc, Hs, Hg; lia).
  cbn [obind]. do 2 f_equal.
  rewrite sum_as_series.
  2:{ apply nonempty_of_length.
      rewrite !zip_with_length, Hc, Hs, Hg. lia. }
  rewrite !zip_with_length, Hc, Hs, Hg.
  replace (Nat.min (Nat.min j j) j - 1)%nat with (j - 1)%nat by lia.
  unfold Spec.panjer_sum, sum_f. apply sum_eq. intros t Ht.
  rewrite zip_with_nth by (rewrite ?zip_with_length, ?Hc, ?Hs, ?Hg; lia).
  rewrite zip_with_nth by (rewrite ?Hc, ?Hs; lia).
  unfold coef.
  rewrite (map_nth_in_range (fun i => a + b * INR i / INR j) _ 0%nat)
    by (rewrite arange_length; lia).
  rewrite arange_nth by lia.
  rewrite slice_nth by lia.
  unfold at_index. rewrite rev_nth by lia.
  replace (1 + t)%nat with (t + 1)%nat by lia.
  replace (length g - S (j - (t + 1)))%nat with t by lia.
  reflexivity.
Qed.

(** The loop over [j0, j0 + 1, ..., j0 + k - 1]: it returns, keeps what it
    was given and extends it by the Panjer sums. *)
Lemma panjer_loop_returns (k : nat) :
  forall (j0 : nat) (g : list R),
    (1 <= j0)%nat -> length g = j0 -> (j0 + k <= length fj1)%nat ->
    exists g',
      panjer_loop a b fj1 (seq j0 k) g = Return g'
      /\ length g' = (j0 + k)%nat
      /\ (forall t, (t < j0)%nat -> at_index g' t = at_index g t)
      /\ (forall j, (j0 <= j < j0 + k)%nat ->
                    at_index g' j = Spec.panjer_sum a b fj1 (at_index g') j).
Proof.
  induction k as [|k IH]; intros j0 g Hj Hg Hf.
  - exists g. simpl. repeat split; auto; try lia.
  - simpl seq. simpl panjer_loop.
    rewrite panjer_step_returns by (auto; lia). cbn [obind].
    set (v := Spec.panjer_sum a b fj1 (at_index g) j0).
    destruct (IH (S j0) (v :: g)) as (g' & Hrun & Hlen & Hold & Hnew);
      [lia | simpl; lia | lia |].
    exists g'. split; [exact Hrun|]. split; [lia|].
    assert (Hkeep : forall t, (t < j0)%nat -> at_index g' t = at_index g t).
    { intros t Ht. rewrite Hold by lia. apply at_index_old. lia. }
    split; [exact Hkeep|].
    intros j Hjj. destruct (Nat.eq_dec j j0) as [->|Hne].
    + rewrite Hold by lia. rewrite <- Hg at 1. rewrite at_index_new.
      unfold v. apply panjer_sum_ext; [exact Hj|].
      intros t Ht. symmetry. apply Hkeep. exact Ht.
    + apply Hnew. lia.
Qed.

End PanjerLoop.

Section PanjerMasses.

Variable frequency : Frequency.
Variable severity : Discretized.
Variable n_aggr_dist_nodes : nat.
Variables a b p0 g0 : R.

Hypothesis nodes_positive : (1 <= n_aggr_dist_nodes)%nat.
Hypothesis severity_fits : (length (fj severity) <= n_aggr_dist_nodes)%nat.
Hypothesis coefficients : abp0g0 frequency (fj severity) = (a, b, p0, [g0]).

Let fj1 : list R :=
  fj severity ++ repeat 0 (n_aggr_dist_nodes - length (fj severity)).

Lemma panjer_sum_padded (h : nat -> R) (j : nat) :
  Spec.panjer_sum a b fj1 h j = Spec.panjer_sum a b (fj severity) h j.
Proof.
  unfold Spec.panjer_sum, sum_f. apply sum_eq. intros i _.
  unfold fj1. rewrite padded_nth. reflexivity.
Qed.

(** On inputs of fitting sizes the recursion computes its masses without
    raising: an accumulated sequence [h] that starts at [g0] and obeys the
    Panjer sum, then the combination with the severity masses. *)
Lemma panjer_masses_returns :
  exists (h : nat -> R) (g : list R),
    panjer_masses frequency severity n_aggr_dist_nodes = Return g
    /\ length g = n_aggr_dist_nodes
    /\ h 0%nat = g0
    /\ (forall j, (1 <= j < n_aggr_dist_nodes)%nat ->
                  h j = Spec.panjer_sum a b (fj severity) h j)
    /\ (forall j, (j < n_aggr_dist_nodes)%nat ->
                  nth j g 0
                  = Spec.panjer_g a b p0 (pmf (fmodel frequency) 1)
                                  (fj severity) h j).
Proof.
  assert (Hlen1 : length fj1 = n_aggr_dist_nodes)
    by (apply zero_pad_length; assumption).
  destruct (panjer_loop_returns a b fj1 (n_aggr_dist_nodes - 1) 1 [g0])
    as (acc & Hrun & Hacc & Hold & Hnew); [lia | reflexivity | lia |].
  assert (E0 : nth_error fj1 0 = Some (nth 0 fj1 0))
    by (apply nth_error_nth'; lia).
  assert (Hn0 : nth 0 fj1 0 = nth 0 (fj severity) 0)
    by (unfold fj1; apply padded_nth).
  rewrite Hn0 in E0.
  set (f0 := nth 0 (fj severity) 0) in *.
  exists (fun t => nth t (rev acc) 0).
  exists (map (fun x => x / (1 - a * f0))
              (np.zip_with Rplus
                 (map (fun x => (pmf (fmodel frequency) 1 - (a + b) * p0) * x) fj1)
                 (rev acc))).
  unfold panjer_masses. rewrite coefficients.
  rewrite zero_pad_returns by assumption. fold fj1. cbn [obind].
  unfold np.arange. rewrite Hrun. cbn [obind].
  rewrite broadcast_same_length
    by (rewrite length_map, length_rev, Hlen1, Hacc; lia).
  cbn [obind]. unfold np.item. rewrite E0.
  cbn [obind]. split; [reflexivity|].
  split.
  { rewrite length_map, zip_with_length, length_map, length_rev, Hlen1, Hacc. lia. }
  split.
  { rewrite Hold by lia. reflexivity. }
  split.
  { intros j Hj. rewrite Hnew by lia. apply panjer_sum_padded. }
  intros j Hj.
  rewrite (map_nth_in_range (fun x => x / (1 - a * f0)) _ 0)
    by (rewrite zip_with_length, length_map, length_rev, Hlen1, Hacc; lia).
  rewrite zip_with_nth
    by (rewrite ?length_map, ?length_rev, ?Hlen1, ?Hacc; lia).
  rewrite (map_nth_in_range
             (fun x => (pmf (fmodel frequency) 1 - (a + b) * p0) * x) _ 0)
    by lia.
  unfold Spec.panjer_g, fj1. rewrite padded_nth. reflexivity.
Qed.

End PanjerMasses.

(* ------------------------------------------------------------------ *)
(** * The deterministic aggregations: what they return *)

Section DeterministicAggregations.

Variable PROB_TOLERANCE : R.
Variable fft ifft : list C -> list C.

Lemma fast_fourier_transform_finishes
      (severity : Discretized) (frequency : Frequency) (n : nat) (discr_step : R)
      (tilt : bool) (tilt_value : option R) (normalize : bool)
      (g : list R) (lg : list diagnostic) :
  fft_masses fft ifft severity frequency n tilt tilt_value = Return g ->
  fast_fourier_transform PROB_TOLERANCE fft ifft severity frequency n discr_step
                         tilt tilt_value normalize lg
  = finish PROB_TOLERANCE g normalize discr_step n lg.
Proof.
  intros H. unfold fast_fourier_transform, bind, lift. rewrite H. reflexivity.
Qed.

Lemma panjer_recursion_finishes
      (frequency : Frequency) (severity : Discretized) (n : nat) (discr_step : R)
      (normalize : bool) (g : list R) (lg : list diagnostic) :
  panjer_masses frequency severity n = Return g ->
  panjer_recursion PROB_TOLERANCE frequency severity n discr_step normalize lg
  = finish PROB_TOLERANCE g normalize discr_step n lg.
Proof.
  intros H. unfold panjer_recursion, bind, lift. rewrite H. reflexivity.
Qed.

End DeterministicAggregations.

(** C5. On a severity that fits in [m = n_aggr_dist_nodes >= 1] nodes,
    [fast_fourier_transform] returns a cdf of [m] entries whose entry [k] is
    the sum, clipped at 1, of the masses [g[0..k]] (each divided by the total
    mass when normalization is asked for), where [g[i]] is [exp(+theta i)]
    times the real part of the inverse transform of the pgf of the forward
    transform of [exp(-theta k) fj[k]], [k = 0..m-1], [fj] zero-padded, and
    [theta] is the given tilt value, [20 / m] when none is given, [0] when
    tilting is off. *)
Theorem fast_fourier_transform_computes
        (PROB_TOLERANCE : R) (fft ifft : list C -> list C)
        (severity : Discretized) (frequency : Frequency)
        (n_aggr_dist_nodes : nat) (discr_step : R) (tilt : bool)
        (tilt_value : option R) (normalize : bool) (lg : list diagnostic) :
  (forall xs, length (fft xs) = length xs) ->
  (forall xs, length (ifft xs) = length xs) ->
  (1 <= n_aggr_dist_nodes)%nat ->
  (length (fj severity) <= n_aggr_dist_nodes)%nat ->
  exists res lg',
    fast_fourier_transform PROB_TOLERANCE fft ifft severity frequency
                           n_aggr_dist_nodes discr_step tilt tilt_value normalize lg
    = (Return res, lg')
    /\ length (Aggregate.cdf res) = n_aggr_dist_nodes
    /\ forall k, (k < n_aggr_dist_nodes)%nat ->
         nth k (Aggregate.cdf res) 0
         = Spec.cdf_at
             (Spec.fft_g fft ifft frequency (fj severity) n_aggr_dist_nodes
                         (Spec.theta tilt tilt_value n_aggr_dist_nodes))
             n_aggr_dist_nodes normalize k.
Proof.
  intros Hfft Hifft Hn Hfit.
  pose proof (fft_masses_returns fft ifft Hfft Hifft severity frequency
                n_aggr_dist_nodes tilt tilt_value Hn Hfit) as Hrun.
  pose proof (fft_masses_length fft ifft Hfft Hifft severity frequency
                n_aggr_dist_nodes tilt tilt_value Hn Hfit) as Hlen.
  pose proof (fft_masses_nth fft ifft Hfft Hifft severity frequency
                n_aggr_dist_nodes tilt tilt_value Hn Hfit) as Hnth.
  match type of Hrun with _ = Return ?g0 => set (g := g0) in * end.
  rewrite (fast_fourier_transform_finishes PROB_TOLERANCE fft ifft severity frequency
             n_aggr_dist_nodes discr_step tilt tilt_value normalize g lg Hrun).
  rewrite finish_returns by (apply nonempty_of_length; rewrite Hlen; exact Hn).
  do 2 eexists. split; [reflexivity|]. cbn [Aggregate.cdf].
  split.
  - rewrite clipped_cumsum_length. exact Hlen.
  - intros k Hk.
    apply (clipped_cumsum_nth g _ n_aggr_dist_nodes normalize Hlen Hnth Hn k Hk).
Qed.

(** C10. With the tilt flag off the tilt value does not matter: the run of
    [fast_fourier_transform] (result, exception and logger alike) is the one
    with no tilt value. *)
Theorem tilt_value_ignored_without_tilt
        (PROB_TOLERANCE : R) (fft ifft : list C -> list C)
        (severity : Discretized) (frequency : Frequency)
        (n_aggr_dist_nodes : nat) (discr_step : R)
        (tilt_value : option R) (normalize : bool) (lg : list diagnostic) :
  fast_fourier_transform PROB_TOLERANCE fft ifft severity frequency
                         n_aggr_dist_nodes discr_step false tilt_value normalize lg
  = fast_fourier_transform PROB_TOLERANCE fft ifft severity frequency
                           n_aggr_dist_nodes discr_step false None normalize lg.
Proof.
  unfold fast_fourier_transform, fft_masses, tilting_parameter. reflexivity.
Qed.

Lemma dft_length (xs : list C) : length (Dft.dft xs) = length xs.
Proof. unfold Dft.dft. rewrite length_map, length_seq. reflexivity. Qed.

Lemma idft_length (ys : list C) : length (Dft.idft ys) = length ys.
Proof. unfold Dft.idft. rewrite length_map, length_seq. reflexivity. Qed.

Lemma fast_fourier_transform_computes_witness :
  exists res lg',
    fast_fourier_transform (1 / 1000000) Dft.dft Dft.idft two_point geometric
                           2 1 true None false []
    = (Return res, lg')
    /\ length (Aggregate.cdf res) = 2%nat
    /\ forall k, (k < 2)%nat ->
         nth k (Aggregate.cdf res) 0
         = Spec.cdf_at
             (Spec.fft_g Dft.dft Dft.idft geometric (fj two_point) 2
                         (Spec.theta true None 2))
             2 false k.
Proof.
  apply (fast_fourier_transform_computes
           (1 / 1000000) Dft.dft Dft.idft two_point geometric 2 1 true None false []).
  - exact dft_length.
  - exact idft_length.
  - lia.
  - simpl. lia.
Defined.

(** C3. On a severity that fits in [m = n_aggr_dist_nodes >= 1] nodes and
    coefficients [(a, b, p0, g0)] of the frequency model, [panjer_recursion]
    accumulates a sequence [h] with [h[0] = g0] and, for [j = 1..m-1] in
    increasing order, [h[j]] the sum over [i = 1..j] of
    [(a + b i / j) fj[i] h[j - i]]; the mass at [j] is
    [((pmf(1) - (a + b) p0) fj[j] + h[j]) / (1 - a fj[0])], the accumulated
    sequence read oldest first; the returned cdf has [m] entries, entry [k]
    being the sum of the masses [0..k] (each divided by the total mass when
    normalization is asked for) clipped at 1, and the nodes are
    [discr_step * j], [j = 0..m-1]. *)
Theorem panjer_recursion_computes
        (PROB_TOLERANCE : R) (frequency : Frequency) (severity : Discretized)
        (n_aggr_dist_nodes : nat) (discr_step : R) (normalize : bool)
        (a b p0 g0 : R) (lg : list diagnostic) :
  (1 <= n_aggr_dist_nodes)%nat ->
  (length (fj severity) <= n_aggr_dist_nodes)%nat ->
  abp0g0 frequency (fj severity) = (a, b, p0, [g0]) ->
  exists h : nat -> R,
    h 0%nat = g0
    /\ (forall j, (1 <= j < n_aggr_dist_nodes)%nat ->
                  h j = Spec.panjer_sum a b (fj severity) h j)
    /\ exists res lg',
         panjer_recursion PROB_TOLERANCE frequency severity n_aggr_dist_nodes
                          discr_step normalize lg
         = (Return res, lg')
         /\ length (Aggregate.cdf res) = n_aggr_dist_nodes
         /\ (forall k, (k < n_aggr_dist_nodes)%nat ->
               nth k (Aggregate.cdf res) 0
               = Spec.cdf_at
                   (Spec.panjer_g a b p0 (pmf (fmodel frequency) 1) (fj severity) h)
                   n_aggr_dist_nodes normalize k)
         /\ Aggregate.nodes res
            = map (fun j => discr_step * INR j) (seq 0 n_aggr_dist_nodes).
Proof.
  intros Hn Hfit Hco.
  destruct (panjer_masses_returns frequency severity n_aggr_dist_nodes a b p0 g0
                                  Hn Hfit Hco)
    as (h & g & Hrun & Hlen & H0 & Hrec & Hg).
  exists h. split; [exact H0|]. split; [exact Hrec|].
  rewrite (panjer_recursion_finishes PROB_TOLERANCE frequency severity
             n_aggr_dist_nodes discr_step normalize g lg Hrun).
  rewrite finish_returns by (apply nonempty_of_length; rewrite Hlen; exact Hn).
  do 2 eexists. split; [reflexivity|]. cbn [Aggregate.cdf Aggregate.nodes].
  split; [|split].
  - rewrite clipped_cumsum_length. exact Hlen.
  - intros k Hk.
    apply (clipped_cumsum_nth g _ n_aggr_dist_nodes normalize Hlen Hg Hn k Hk).
  - unfold np.arange. rewrite Nat.sub_0_r. reflexivity.
Qed.

Lemma panjer_recursion_computes_witness :
  exists h : nat -> R,
    h 0%nat = 1 / (2 - nth 0 (fj two_point) 0)
    /\ (forall j, (1 <= j < 3)%nat ->
                  h j = Spec.panjer_sum (1 / 2) 0 (fj two_point) h j)
    /\ exists res lg',
         panjer_recursion (1 / 1000000) geometric two_point 3 1 false []
         = (Return res, lg')
         /\ length (Aggregate.cdf res) = 3%nat
         /\ (forall k, (k < 3)%nat ->
               nth k (Aggregate.cdf res) 0
               = Spec.cdf_at
                   (Spec.panjer_g (1 / 2) 0 (1 / 2) (pmf (fmodel geometric) 1)
                                  (fj two_point) h)
                   3 false k)
         /\ Aggregate.nodes res = map (fun j => 1 * INR j) (seq 0 3).
Proof.
  apply (panjer_recursion_computes (1 / 1000000) geometric two_point 3 1 false
                                   (1 / 2) 0 (1 / 2)
                                   (1 / (2 - nth 0 (fj two_point) 0)) []).
  - lia.
  - simpl. lia.
  - reflexivity.
Defined.

Lemma finish_policy (tol : R) (g : list R) (normalize : bool) (discr_step : R)
      (n : nat) (lg : list diagnostic) :
  g <> [] ->
  exists res lg',
    finish tol g normalize discr_step n lg = (Return res, lg')
    /\ shortfall_policy tol lg lg' (last (Aggregate.cdf res) 0).
Proof.
  intros Hg. rewrite finish_returns by exact Hg.
  do 2 eexists. split; [reflexivity|]. cbn [Aggregate.cdf].
  unfold shortfall_policy.
  destruct (Rgt_dec (1 - last (clipped_cumsum g normalize) 0) tol) as [H|H];
    split; intros H'; try reflexivity; lra.
Qed.

(** C6. On inputs of fitting sizes, [fast_fourier_transform] and
    [panjer_recursion] never raise: they return their [{cdf, nodes}] result,
    and the logger gets one warning, carrying the last cumulative probability
    [cdf[-1]], exactly when [1 - cdf[-1]] exceeds [PROB_TOLERANCE]; when the
    shortfall is within the tolerance the logger is left as it was. *)
Theorem shortfall_is_warned_not_raised
        (PROB_TOLERANCE : R) (fft ifft : list C -> list C)
        (severity : Discretized) (frequency : Frequency)
        (n_aggr_dist_nodes : nat) (discr_step : R) (tilt : bool)
        (tilt_value : option R) (normalize : bool)
        (a b p0 g0 : R) (lg : list diagnostic) :
  (forall xs, length (fft xs) = length xs) ->
  (forall xs, length (ifft xs) = length xs) ->
  (1 <= n_aggr_dist_nodes)%nat ->
  (length (fj severity) <= n_aggr_dist_nodes)%nat ->
  abp0g0 frequency (fj severity) = (a, b, p0, [g0]) ->
  (exists res lg',
      fast_fourier_transform PROB_TOLERANCE fft ifft severity frequency
                             n_aggr_dist_nodes discr_step tilt tilt_value normalize lg
      = (Return res, lg')
      /\ shortfall_policy PROB_TOLERANCE lg lg' (last (Aggregate.cdf res) 0))
  /\ (exists res lg',
        panjer_recursion PROB_TOLERANCE frequency severity n_aggr_dist_nodes
                         discr_step normalize lg
        = (Return res, lg')
        /\ shortfall_policy PROB_TOLERANCE lg lg' (last (Aggregate.cdf res) 0)).
Proof.
  intros Hfft Hifft Hn Hfit Hco. split.
  - pose proof (fft_masses_returns fft ifft Hfft Hifft severity frequency
                  n_aggr_dist_nodes tilt tilt_value Hn Hfit) as Hrun.
    pose proof (fft_masses_length fft ifft Hfft Hifft severity frequency
                  n_aggr_dist_nodes tilt tilt_value Hn Hfit) as Hlen.
    match type of Hrun with _ = Return ?g0 => set (g := g0) in * end.
    rewrite (fast_fourier_transform_finishes PROB_TOLERANCE fft ifft severity
               frequency n_aggr_dist_nodes discr_step tilt tilt_value normalize
               g lg Hrun).
    apply finish_policy. apply nonempty_of_length. rewrite Hlen. exact Hn.
  - destruct (panjer_masses_returns frequency severity n_aggr_dist_nodes a b p0 g0
                                    Hn Hfit Hco)
      as (h & g & Hrun & Hlen & _).
    rewrite (panjer_recursion_finishes PROB_TOLERANCE frequency severity
               n_aggr_dist_nodes discr_step normalize g lg Hrun).
    apply finish_policy. apply nonempty_of_length. rewrite Hlen. exact Hn.
Qed.

Lemma shortfall_is_warned_not_raised_witness :
  (exists res lg',
      fast_fourier_transform (1 / 1000000) Dft.dft Dft.idft two_point geometric
                             2 1 true None false []
      = (Return res, lg')
      /\ shortfall_policy (1 / 1000000) [] lg' (last (Aggregate.cdf res) 0))
  /\ (exists res lg',
        panjer_recursion (1 / 1000000) geometric two_point 2 1 false []
        = (Return res, lg')
        /\ shortfall_policy (1 / 1000000) [] lg' (last (Aggregate.cdf res) 0)).
Proof.
  apply (shortfall_is_warned_not_raised
           (1 / 1000000) Dft.dft Dft.idft two_point geometric 2 1 true None false
           (1 / 2) 0 (1 / 2) (1 / (2 - nth 0 (fj two_point) 0)) []).
  - exact dft_length.
  - exact idft_length.
  - lia.
  - simpl. lia.
  - reflexivity.
Defined.

(* ------------------------------------------------------------------ *)
(** * The simulation: grouping of the draws *)

Section Grouping.

Lemma cumsum_nat_from_length (acc : nat) (xs : list nat) :
  length (npx.cumsum_nat_from acc xs) = length xs.
Proof. revert acc; induction xs; intro; simpl; auto. Qed.

Lemma upto_pred_full {A : Type} (n : nat) (xs : list A) :
  (1 <= n)%nat -> length xs = n -> npx.upto_pred n xs = removelast xs.
Proof.
  intros Hn Hl. destruct n as [|k]; [lia|]. simpl.
  rewrite removelast_firstn_len, Hl. reflexivity.
Qed.

(** Splitting at the cumulative counts, the last one left out, is grouping
    by the counts. *)
Lemma split_from_groups (ary : list R) (counts : list nat) :
  forall (st c : nat),
    (st + c + npx.sum_nat counts)%nat = length ary ->
    npx.split_from st ary (removelast (npx.cumsum_nat_from st (c :: counts)))
    = Spec.groups (c :: counts) (skipn st ary).
Proof.
  induction counts as [|c' rest IH]; intros st c Hlen.
  - simpl in *. unfold np.slice. do 2 f_equal. lia.
  - assert (Hcons : npx.cumsum_nat_from st (c :: c' :: rest)
                    = (st + c)%nat :: npx.cumsum_nat_from (st + c) (c' :: rest))
      by reflexivity.
    rewrite Hcons.
    assert (Hrl : forall (x : nat) (l : list nat),
               l <> [] -> removelast (x :: l) = x :: removelast l).
    { intros x [|y l] H; [congruence|reflexivity]. }
    rewrite Hrl by (simpl; congruence).
    assert (Hsp : forall (x : nat) (l : list nat),
               npx.split_from st ary (x :: l)
               = np.slice st x ary :: npx.split_from x ary l)
      by reflexivity.
    rewrite Hsp, IH by (simpl in Hlen; lia).
    assert (Hgr : Spec.groups (c :: c' :: rest) (skipn st ary)
                  = firstn c (skipn st ary)
                    :: Spec.groups (c' :: rest) (skipn c (skipn st ary)))
      by reflexivity.
    rewrite Hgr, skipn_skipn.
    unfold np.slice. replace (st + c - st)%nat with c by lia.
    replace (c + st)%nat with (st + c)%nat by lia. reflexivity.
Qed.

Lemma groups_length (counts : list nat) (draws : list R) :
  length (Spec.groups counts draws) = length counts.
Proof. revert draws; induction counts; intro; simpl; auto. Qed.

Lemma groups_empty_group (counts : list nat) :
  forall (draws : list R) (k : nat),
    (k < length counts)%nat -> nth k counts 0%nat = 0%nat ->
    nth k (Spec.groups counts draws) [] = [].
Proof.
  induction counts as [|c rest IH]; intros draws k Hk H0; simpl in *; [lia|].
  destruct k as [|k].
  - subst c. reflexivity.
  - apply IH; [lia|exact H0].
Qed.

End Grouping.

(* ------------------------------------------------------------------ *)
(** * The simulation *)

Section MonteCarlo.

Variable rng : Type.
Variable seeded : Z -> rng.
Variable np_random_uniform : R -> R -> nat -> rng -> list R * rng.

Variable severity : Severity.
Variable frequency : Frequency.
Variables cover deductible : R.
Variable n_sim : nat.
Variable random_state : Z.

Let counts : list nat := rvs (fmodel frequency) n_sim random_state.

(** The uniform draws of a run: from the state the seed [random_state + 1]
    determines, whatever the state before the call. *)
Let draws : list R * rng :=
  np_random_uniform (mc_p0 severity deductible) 1 (npx.sum_nat counts)
                    (seeded (random_state + 1)%Z).

Lemma mc_uniforms_seeded (st : rng) :
  mc_uniforms rng seeded np_random_uniform severity frequency deductible n_sim
              random_state st = draws.
Proof. reflexivity. Qed.

Lemma mc_svsample_seeded (st : rng) :
  fst (mc_svsample rng seeded np_random_uniform severity frequency cover deductible
                   n_sim random_state st)
  = map (fun x => Rmin (x - deductible) cover)
        (map (ppf (smodel severity)) (fst draws)).
Proof.
  unfold mc_svsample. rewrite mc_uniforms_seeded.
  destruct draws as [us st2]. reflexivity.
Qed.

Lemma mc_xsim_seeded (st : rng) :
  fst (mc_xsim rng seeded np_random_uniform severity frequency cover deductible
               n_sim random_state st)
  = map np.sum
        (npx.split
           (map (fun x => Rmin (x - deductible) cover)
                (map (ppf (smodel severity)) (fst draws)))
           (mc_cs frequency n_sim random_state)).
Proof.
  unfold mc_xsim. rewrite <- (mc_svsample_seeded st).
  destruct (mc_svsample _ _ _ _ _ _ _ _ _ _) as [sv st2]. reflexivity.
Qed.

Lemma mc_simulation_seeded (st : rng) :
  fst (mc_simulation rng seeded np_random_uniform severity frequency cover
                     deductible n_sim random_state st)
  = let xsim := fst (mc_xsim rng seeded np_random_uniform severity frequency cover
                             deductible n_sim random_state st) in
    {| Aggregate.cdf := map (ecdf xsim) (npx.unique xsim);
       Aggregate.nodes := npx.unique xsim |}.
Proof.
  unfold mc_simulation.
  destruct (mc_xsim _ _ _ _ _ _ _ _ _ _) as [xs st2]. reflexivity.
Qed.

End MonteCarlo.

(** C7. [mc_simulation] is determined by its arguments: run from any two
    states of the global generator, with the same models, cover, deductible,
    [n_sim] and [random_state], it returns the same [{cdf, nodes}]. The claim
    counts are the frequency model's draws for the seed [random_state]; the
    uniform draws behind the severities come from the generator state that
    the seed [random_state + 1] determines. *)
Theorem mc_simulation_is_seed_determined
        (rng : Type) (seeded : Z -> rng)
        (np_random_uniform : R -> R -> nat -> rng -> list R * rng)
        (severity : Severity) (frequency : Frequency) (cover deductible : R)
        (n_sim : nat) (random_state : Z) (st st' : rng) :
  fst (mc_simulation rng seeded np_random_uniform severity frequency cover
                     deductible n_sim random_state st)
  = fst (mc_simulation rng seeded np_random_uniform severity frequency cover
                       deductible n_sim random_state st')
  /\ mc_fqsample frequency n_sim random_state
     = rvs (fmodel frequency) n_sim random_state
  /\ mc_uniforms rng seeded np_random_uniform severity frequency deductible n_sim
                 random_state st
     = np_random_uniform (mc_p0 severity deductible) 1
                         (npx.sum_nat (rvs (fmodel frequency) n_sim random_state))
                         (seeded (random_state + 1)%Z).
Proof.
  split; [|split; reflexivity].
  rewrite !mc_simulation_seeded. cbv zeta. rewrite !mc_xsim_seeded. reflexivity.
Qed.

(** C8. In [mc_simulation], [p0] is the severity cdf at the deductible when
    the deductible exceeds [1e-5] and [0] otherwise; the uniform draws are
    taken between [p0] and [1], as many as the simulated claim counts add up
    to; each severity variate is the quantile ([ppf]) of its uniform draw and
    enters the aggregation as [min(x - deductible, cover)]. *)
Theorem mc_simulation_sampling
        (rng : Type) (seeded : Z -> rng)
        (np_random_uniform : R -> R -> nat -> rng -> list R * rng)
        (severity : Severity) (frequency : Frequency) (cover deductible : R)
        (n_sim : nat) (random_state : Z) (st : rng) :
  (forall low high size s, length (fst (np_random_uniform low high size s)) = size) ->
  let counts := mc_fqsample frequency n_sim random_state in
  let us := fst (mc_uniforms rng seeded np_random_uniform severity frequency
                             deductible n_sim random_state st) in
  let sv := fst (mc_svsample rng seeded np_random_uniform severity frequency cover
                             deductible n_sim random_state st) in
  (deductible > 1 / 100000 ->
   mc_p0 severity deductible = cdf (smodel severity) deductible)
  /\ (deductible <= 1 / 100000 -> mc_p0 severity deductible = 0)
  /\ us = fst (np_random_uniform (mc_p0 severity deductible) 1 (npx.sum_nat counts)
                                 (seeded (random_state + 1)%Z))
  /\ length sv = npx.sum_nat counts
  /\ sv = map (fun u => Rmin (ppf (smodel severity) u - deductible) cover) us
  /\ fst (mc_xsim rng seeded np_random_uniform severity frequency cover deductible
                  n_sim random_state st)
     = map np.sum (npx.split sv (mc_cs frequency n_sim random_state)).
Proof.
  intros Hsize counts us sv.
  assert (Hsv : sv = map (fun u => Rmin (ppf (smodel severity) u - deductible) cover) us).
  { unfold sv, us. rewrite mc_svsample_seeded, mc_uniforms_seeded, map_map.
    reflexivity. }
  split; [|split; [|split; [|split; [|split]]]].
  - intros Hd. unfold mc_p0. destruct (Rgt_dec deductible (1 / 100000)); [reflexivity|lra].
  - intros Hd. unfold mc_p0. destruct (Rgt_dec deductible (1 / 100000)); [lra|reflexivity].
  - reflexivity.
  - rewrite Hsv, length_map. unfold us. rewrite mc_uniforms_seeded. apply Hsize.
  - exact Hsv.
  - unfold sv. rewrite mc_xsim_seeded, mc_svsample_seeded. reflexivity.
Qed.

Lemma counter_uniform_size (low high : R) (size : nat) (s : Z) :
  length (fst (counter_uniform low high size s)) = size.
Proof. unfold counter_uniform. simpl. rewrite length_map, length_seq. reflexivity. Qed.

Lemma mc_simulation_sampling_witness :
  let counts := mc_fqsample geometric 4 0 in
  let us := fst (mc_uniforms Z (fun s => s) counter_uniform uniform10 geometric
                             1 4 0 7%Z) in
  let sv := fst (mc_svsample Z (fun s => s) counter_uniform uniform10 geometric 5
                             1 4 0 7%Z) in
  (1 > 1 / 100000 -> mc_p0 uniform10 1 = cdf (smodel uniform10) 1)
  /\ (1 <= 1 / 100000 -> mc_p0 uniform10 1 = 0)
  /\ us = fst (counter_uniform (mc_p0 uniform10 1) 1 (npx.sum_nat counts) (0 + 1)%Z)
  /\ length sv = npx.sum_nat counts
  /\ sv = map (fun u => Rmin (ppf (smodel uniform10) u - 1) 5) us
  /\ fst (mc_xsim Z (fun s => s) counter_uniform uniform10 geometric 5 1 4 0 7%Z)
     = map np.sum (npx.split sv (mc_cs geometric 4 0)).
Proof.
  apply (mc_simulation_sampling Z (fun s => s) counter_uniform uniform10 geometric
                                5 1 4 0 7%Z).
  exact counter_uniform_size.
Defined.

(** C9. With [n_sim >= 1] simulated years, splitting the severity draws at
    the cumulative claim counts groups them year by year, left to right:
    exactly [n_sim] aggregate realizations come out, and a year whose claim
    count is zero gets the empty group, whose sum is [0]. *)
Theorem zero_claim_years_contribute_zero
        (rng : Type) (seeded : Z -> rng)
        (np_random_uniform : R -> R -> nat -> rng -> list R * rng)
        (severity : Severity) (frequency : Frequency) (cover deductible : R)
        (n_sim : nat) (random_state : Z) (st : rng) :
  (forall low high size s, length (fst (np_random_uniform low high size s)) = size) ->
  length (rvs (fmodel frequency) n_sim random_state) = n_sim ->
  (1 <= n_sim)%nat ->
  let counts := mc_fqsample frequency n_sim random_state in
  let sv := fst (mc_svsample rng seeded np_random_uniform severity frequency cover
                             deductible n_sim random_state st) in
  let xsim := fst (mc_xsim rng seeded np_random_uniform severity frequency cover
                           deductible n_sim random_state st) in
  xsim = map np.sum (Spec.groups counts sv)
  /\ length xsim = n_sim
  /\ forall k, (k < n_sim)%nat -> nth k counts 0%nat = 0%nat ->
       nth k (Spec.groups counts sv) [] = [] /\ nth k xsim 0 = 0.
Proof.
  intros Hsize Hrvs Hn counts sv xsim.
  assert (Hlen : length sv = npx.sum_nat counts).
  { unfold sv. rewrite mc_svsample_seeded, !length_map. apply Hsize. }
  assert (Hx : xsim = map np.sum (npx.split sv (mc_cs frequency n_sim random_state))).
  { unfold xsim, sv. rewrite mc_xsim_seeded, mc_svsample_seeded. reflexivity. }
  assert (Hc : length counts = n_sim) by exact Hrvs.
  assert (Hgroups : xsim = map np.sum (Spec.groups counts sv)).
  { rewrite Hx. f_equal. unfold mc_cs, npx.split, npx.cumsum_nat. fold counts.
    rewrite upto_pred_full
      by (try exact Hn; rewrite cumsum_nat_from_length; exact Hc).
    destruct counts as [|c rest] eqn:E; [simpl in Hc; lia|].
    rewrite split_from_groups by (simpl in Hlen |- *; lia).
    reflexivity. }
  split; [exact Hgroups|]. split.
  - rewrite Hgroups, length_map, groups_length. exact Hc.
  - intros k Hk H0.
    assert (Hg : nth k (Spec.groups counts sv) [] = [])
      by (apply groups_empty_group; [lia|exact H0]).
    split; [exact Hg|].
    rewrite Hgroups.
    change 0 with (np.sum []).
    rewrite (map_nth np.sum). rewrite Hg. reflexivity.
Qed.

Lemma zero_claim_years_contribute_zero_witness :
  let counts := mc_fqsample geometric 4 0 in
  let sv := fst (mc_svsample Z (fun s => s) counter_uniform uniform10 geometric 5
                             1 4 0 7%Z) in
  let xsim := fst (mc_xsim Z (fun s => s) counter_uniform uniform10 geometric 5 1
                           4 0 7%Z) in
  xsim = map np.sum (Spec.groups counts sv)
  /\ length xsim = 4%nat
  /\ forall k, (k < 4)%nat -> nth k counts 0%nat = 0%nat ->
       nth k (Spec.groups counts sv) [] = [] /\ nth k xsim 0 = 0.
Proof.
  apply (zero_claim_years_contribute_zero Z (fun s => s) counter_uniform uniform10
                                          geometric 5 1 4 0 7%Z).
  - exact counter_uniform_size.
  - reflexivity.
  - lia.
Defined.

(** The counts of the simulated run used in the examples: the first and the
    last year have no claim. *)
Lemma example_counts : mc_fqsample geometric 4 0 = [0; 1; 2; 0]%nat.
Proof. reflexivity. Qed.

(* ------------------------------------------------------------------ *)
(** * Shape of the returned cdf *)

Section CdfShape.







End CdfShape.

(* ------------------------------------------------------------------ *)
(** * The empirical cdf on the distinct realized values *)

Section EmpiricalCdf.

Lemma insert_unique_Forall (P : R -> Prop) (x : R) (xs : list R) :
  P x -> Forall P xs -> Forall P (npx.insert_unique x xs).
Proof.
  intros Hx Hxs. induction Hxs as [|y ys Hy Hys IH]; simpl.
  - constructor; [exact Hx|constructor].
  - destruct (Rlt_dec x y); [|destruct (Req_dec_T x y)];
      repeat constructor; auto.
Qed.

Lemma insert_unique_sorted (x : R) (xs : list R) :
  StronglySorted Rlt xs -> StronglySorted Rlt (npx.insert_unique x xs).
Proof.
  induction 1 as [|y ys Hs IH Hy]; simpl.
  - constructor; constructor.
  - destruct (Rlt_dec x y) as [Hlt|Hnlt].
    + constructor; [constructor; assumption|].
      constructor; [exact Hlt|].
      rewrite Forall_forall in *. intros z Hz. specialize (Hy z Hz). lra.
    + destruct (Req_dec_T x y) as [Heq|Hne].
      * constructor; assumption.
      * constructor; [exact IH|].
        apply insert_unique_Forall; [lra|exact Hy].
Qed.

Lemma unique_sorted (xs : list R) : StronglySorted Rlt (npx.unique xs).
Proof.
  unfold npx.unique. induction xs as [|x xs IH]; simpl.
  - constructor.
  - apply insert_unique_sorted. exact IH.
Qed.


Lemma insert_unique_In (x y : R) (xs : list R) :
  In y (npx.insert_unique x xs) -> y = x \/ In y xs.
Proof.
  induction xs as [|z zs IH]; simpl.
  - intros [H|[]]; auto.
  - destruct (Rlt_dec x z); [|destruct (Req_dec_T x z)]; simpl; intros H.
    + destruct H as [H|[H|H]]; auto.
    + destruct H as [H|H]; auto.
    + destruct H as [H|H]; auto. destruct (IH H); auto.
Qed.








End EmpiricalCdf.

(* ------------------------------------------------------------------ *)
(** * Non-negative masses out of the recursion *)

Section PanjerSign.

Variable frequency : Frequency.
Variable severity : Discretized.
Variable n_aggr_dist_nodes : nat.
Variables a b p0 g0 : R.

Hypothesis nodes_positive : (1 <= n_aggr_dist_nodes)%nat.
Hypothesis severity_fits : (length (fj severity) <= n_aggr_dist_nodes)%nat.
Hypothesis coefficients : abp0g0 frequency (fj severity) = (a, b, p0, [g0]).

Hypothesis a_nonneg : 0 <= a.
Hypothesis ab_nonneg : 0 <= a + b.
Hypothesis fj_nonneg : Forall (fun x => 0 <= x) (fj severity).
Hypothesis g0_nonneg : 0 <= g0.
Hypothesis first_mass : (a + b) * p0 <= pmf (fmodel frequency) 1.
Hypothesis denominator : a * nth 0 (fj severity) 0 < 1.





End PanjerSign.

(* ------------------------------------------------------------------ *)
(** * The two-point transform, for the examples *)

Section TwoPointTransform.

Lemma half_turn : 2 * PI * 1 * 1 / (1 + 1) = PI.
Proof. field. Qed.

Lemma no_turn (x y : R) : x * y = 0 -> 2 * PI * x * y / (1 + 1) = 0.
Proof. intros H. replace (2 * PI * x * y) with (2 * PI * (x * y)) by ring.
       rewrite H. field. Qed.

Lemma dft_pair (x0 x1 : R) :
  Dft.dft [RtoC x0; RtoC x1] = [RtoC (x0 + x1); RtoC (x0 - x1)].
Proof.
  unfold Dft.dft, Dft.Csum, Dft.Cadd, Dft.Cmul, Dft.cis, RtoC.
  cbn [length seq map fold_right nth fst snd INR].
  rewrite half_turn.
  rewrite (no_turn 0 0) by lra. rewrite (no_turn 0 1) by lra.
  rewrite (no_turn 1 0) by lra.
  rewrite Ropp_0, cos_0, sin_0, cos_neg, sin_neg, cos_PI, sin_PI.
  apply (f_equal2 (@cons C)); [|apply (f_equal2 (@cons C)); [|reflexivity]];
    apply (f_equal2 (@pair R R)); lra.
Qed.

Lemma idft_pair (y0 y1 : R) :
  Dft.idft [RtoC y0; RtoC y1] = [RtoC ((y0 + y1) / 2); RtoC ((y0 - y1) / 2)].
Proof.
  unfold Dft.idft, Dft.Csum, Dft.Cadd, Dft.Cmul, Dft.cis, RtoC.
  cbn [length seq map fold_right nth fst snd INR].
  rewrite half_turn.
  rewrite (no_turn 0 0) by lra. rewrite (no_turn 0 1) by lra.
  rewrite (no_turn 1 0) by lra.
  rewrite cos_0, sin_0, cos_PI, sin_PI.
  apply (f_equal2 (@cons C)); [|apply (f_equal2 (@cons C)); [|reflexivity]];
    apply (f_equal2 (@pair R R)); lra.
Qed.

Lemma geometric_pgf_real (x : R) :
  x <> 2 -> pgf (fmodel geometric) (RtoC x) = RtoC (1 / (2 - x)).
Proof.
  intros Hx. unfold geometric, RtoC. simpl. f_equal; field; lra.
Qed.

End TwoPointTransform.

(* ------------------------------------------------------------------ *)
(** * Monotone, bounded cdf *)

Lemma Return_inj {A : Type} (x y : A) : Return x = Return y -> x = y.
Proof. intros H. congruence. Qed.





(** The zero-modified binomial count is a probability law of the
    (a, b, 1) class, and the two-point severity is a probability vector. *)
Lemma zero_modified_binomial_is_a_law :
  sum_f_R0 (pmf (fmodel zero_modified_binomial)) 4 = 1
  /\ (forall k, 0 <= pmf (fmodel zero_modified_binomial) k)
  /\ (forall k, (2 <= k)%nat ->
        pmf (fmodel zero_modified_binomial) k
        = (-1 + 5 / INR k) * pmf (fmodel zero_modified_binomial) (k - 1))
  /\ Forall (fun x => 0 <= x) (fj two_point)
  /\ np.sum (fj two_point) = 1.
Proof.
  split; [simpl; lra|]. split.
  { intros k. do 5 (destruct k as [|k]; [simpl; lra|]). simpl. lra. }
  split.
  { intros k Hk.
    destruct k as [|k]; [lia|]. destruct k as [|k]; [lia|].
    destruct k as [|k]; [simpl; lra|].
    destruct k as [|k]; [simpl; lra|].
    destruct k as [|k]; [simpl; lra|].
    destruct k as [|k]; [simpl; field|].
    replace (S (S (S (S (S (S k))))) - 1)%nat with (S (S (S (S (S k))))) by lia.
    simpl pmf. lra. }
  split.
  { simpl. repeat constructor; lra. }
  unfold np.sum. simpl. lra.
Qed.

(** Its coefficients are the Panjer ones: [p0] is the chance of no claim and
    [g0] is the pgf at the severity mass in zero. *)
Lemma zero_modified_coefficients (fj0 : list R) :
  abp0g0 zero_modified_binomial fj0
  = (-1, 5, pmf (fmodel zero_modified_binomial) 0,
     [Cre (pgf (fmodel zero_modified_binomial) (RtoC (nth 0 fj0 0)))]).
Proof.
  unfold zero_modified_binomial, abp0g0, fmodel, pgf, pmf, Cre, RtoC,
    Dft.Cadd, Dft.Cmul.
  cbn [fst snd]. do 2 f_equal. field.
Qed.



(* ------------------------------------------------------------------ *)
(** * Worked examples

    The three aggregations on small inputs, with every value written out:
    the geometric claim count, the two-point severity (for the deterministic
    methods) and the uniform severity with deductible 1 and cover 5 (for the
    simulation, whose last draw is capped by the cover). *)

Lemma panjer_masses_example :
  panjer_masses geometric two_point 3 = Return [8 / 9; 2 / 9; 1 / 18].
Proof.
  unfold panjer_masses, zero_pad, np.repeat0. simpl.
  unfold np.sum. simpl.
  f_equal.
  repeat (apply (f_equal2 (@cons R)); [field|]). reflexivity.
Qed.

Lemma fft_masses_example :
  fft_masses Dft.dft Dft.idft two_point geometric 2 false None
  = Return [3 / 4; 1 / 4].
Proof.
  rewrite (fft_masses_returns Dft.dft Dft.idft dft_length idft_length two_point
             geometric 2 false None) by (simpl; lia).
  f_equal.
  cbn [Spec.theta seq map nth fj two_point INR].
  replace (exp (- 0 * 0) * (1 / 2)) with (1 / 2)
    by (replace (- 0 * 0) with 0 by lra; rewrite exp_0; lra).
  replace (exp (- 0 * 1) * (1 / 2)) with (1 / 2)
    by (replace (- 0 * 1) with 0 by lra; rewrite exp_0; lra).
  rewrite dft_pair. cbn [map].
  rewrite !geometric_pgf_real by lra.
  rewrite idft_pair. cbn [map Cre RtoC fst].
  unfold exp_ramp, np.arange. cbn [seq map Nat.sub INR np.zip_with].
  replace (0 * 0) with 0 by lra. replace (0 * 1) with 0 by lra.
  rewrite exp_0.
  repeat (apply (f_equal2 (@cons R)); [field|]). reflexivity.
Qed.

Lemma mc_p0_example : mc_p0 uniform10 1 = 1 / 10.
Proof.
  unfold mc_p0. destruct (Rgt_dec 1 (1 / 100000)) as [_|H]; [|lra].
  simpl. apply uniform10_cdf_inside. lra.
Qed.

Ltac decide_reals :=
  repeat match goal with
         | |- context [Rle_dec ?x ?y] => destruct (Rle_dec x y); try lra
         | |- context [Rlt_dec ?x ?y] => destruct (Rlt_dec x y); try lra
         | |- context [Req_dec_T ?x ?y] => destruct (Req_dec_T x y); try lra
         end.

Lemma mc_xsim_example :
  fst (mc_xsim Z (fun s => s) counter_uniform uniform10 geometric 5 1 4 0 7%Z)
  = [0; 9 / 5; 43 / 5; 0].
Proof.
  rewrite mc_xsim_seeded.
  change (rvs (fmodel geometric) 4 0) with [0; 1; 2; 0]%nat.
  rewrite mc_p0_example.
  unfold mc_cs. rewrite example_counts.
  cbn [npx.sum_nat fold_right Nat.add counter_uniform fst seq map
       npx.upto_pred npx.cumsum_nat npx.cumsum_nat_from firstn
       npx.split npx.split_from np.slice skipn Nat.sub length ppf smodel uniform10].
  unfold np.sum. cbn [fold_right map INR].
  unfold Rmin. decide_reals.
  repeat (apply (f_equal2 (@cons R)); [lra|]). reflexivity.
Qed.

Lemma mc_simulation_example :
  fst (mc_simulation Z (fun s => s) counter_uniform uniform10 geometric 5 1 4 0 7%Z)
  = {| Aggregate.cdf := [1 / 2; 3 / 4; 1]; Aggregate.nodes := [0; 9 / 5; 43 / 5] |}.
Proof.
  rewrite mc_simulation_seeded. cbv zeta. rewrite mc_xsim_example.
  assert (Hu : npx.unique [0; 9 / 5; 43 / 5; 0] = [0; 9 / 5; 43 / 5]).
  { unfold npx.unique.
    repeat (cbn [fold_right npx.insert_unique]; decide_reals).
    reflexivity. }
  rewrite Hu. f_equal.
  unfold ecdf. repeat (cbn [map filter length]; decide_reals).
  cbn [length INR].
  repeat (apply (f_equal2 (@cons R)); [lra|]). reflexivity.
Qed.

(* ------------------------------------------------------------------ *)
(** * Further properties of the discretizations *)

Lemma sibling_shapes_witness :
  (exists r, mass_dispersal uniform10 0 (Finite 2) 1 2 = Return r
             /\ length (nodes r) = (2 + extra (Finite 2))%nat
             /\ length (fj r) = (2 + extra (Finite 2))%nat)
  /\ (exists r, lower_discretization uniform10 0 (Finite 2) 1 2 = Return r
             /\ length (nodes r) = (2 + extra (Finite 2))%nat
             /\ length (fj r) = (2 + extra (Finite 2))%nat)
  /\ (exists r, local_moments uniform10 0 (Finite 2) 1 2 = Return r
             /\ length (nodes r) = (2 + extra (Finite 2))%nat
             /\ length (fj r) = (2 + extra (Finite 2))%nat)
  /\ length (upper_discr_point_prob_adjuster uniform10 0 (Finite 2) 1)
     = extra (Finite 2).
Proof.
  apply (sibling_shapes uniform10 0 1 2 (Finite 2)). lia.
Defined.

(** X2. With no node at all ([n_discr_nodes = 0]) and a finite exit point,
    [mass_dispersal], [lower_discretization] and [local_moments] raise
    [IndexError]: the grid is empty and [nodes[-1]] has nothing to read. With
    an infinite exit point they return one mass (the first bucket's) on no
    node, and [upper_discretization] returns no mass and no node. *)
Theorem no_node_edge_case
        (severity : Severity) (deductible discr_step u : R) :
  mass_dispersal severity deductible (Finite u) discr_step 0 = Raise IndexError
  /\ lower_discretization severity deductible (Finite u) discr_step 0
     = Raise IndexError
  /\ local_moments severity deductible (Finite u) discr_step 0 = Raise IndexError
  /\ (exists r, mass_dispersal severity deductible Infinity discr_step 0 = Return r
                /\ nodes r = [] /\ length (fj r) = 1%nat)
  /\ (exists r, lower_discretization severity deductible Infinity discr_step 0
                = Return r /\ nodes r = [] /\ length (fj r) = 1%nat)
  /\ (exists r, local_moments severity deductible Infinity discr_step 0 = Return r
                /\ nodes r = [] /\ length (fj r) = 1%nat)
  /\ nodes (upper_discretization severity deductible Infinity discr_step 0) = []
  /\ fj (upper_discretization severity deductible Infinity discr_step 0) = [].
Proof.
  repeat split; try reflexivity;
    eexists; (split; [reflexivity|]); split; reflexivity.
Qed.

Lemma item_last_nonempty (xs : list R) :
  xs <> [] -> np.item_last xs = Return (last xs 0).
Proof. destruct xs; [congruence|reflexivity]. Qed.

Lemma extended_grid_values (severity : Severity) (discr_step : R)
      (n_discr_nodes : nat) (exit_point : bound) :
  (1 <= n_discr_nodes)%nat ->
  extend_grid exit_point discr_step (grid severity discr_step n_discr_nodes)
  = Return (map (fun j => loc severity + INR j * discr_step)
                (seq 0 (n_discr_nodes + extra exit_point))).
Proof.
  intros Hn. unfold extend_grid.
  destruct exit_point as [u|]; unfold extra; simpl is_finite; cbv iota.
  - rewrite item_last_nonempty by (apply grid_nonempty; exact Hn).
    cbn [obind]. unfold grid, np.arange. rewrite Nat.sub_0_r.
    destruct n_discr_nodes as [|k]; [lia|].
    rewrite (map_seq_last (fun j => loc severity + INR j * discr_step) 0 k 0).
    replace (S k + 1)%nat with (S (S k)) by lia.
    rewrite (seq_S (S k) 0), map_app.
    change (map (fun j => loc severity + INR j * discr_step) [(0 + S k)%nat])
      with [loc severity + INR (S k) * discr_step].
    do 3 f_equal. rewrite S_INR. simpl Nat.add. lra.
  - unfold grid, np.arange. rewrite Nat.sub_0_r, Nat.add_0_r. reflexivity.
Qed.

(** X3. For [n_discr_nodes >= 1], the nodes that [mass_dispersal],
    [lower_discretization] and [local_moments] return are
    [loc + j * discr_step] for [j = 0, 1, ...], the extra node of a finite
    exit point included: evenly spaced by [discr_step] up to the last one,
    and strictly increasing when [discr_step > 0]. *)
Theorem returned_nodes_are_the_grid
        (severity : Severity) (deductible discr_step : R) (n_discr_nodes : nat)
        (exit_point : bound) :
  (1 <= n_discr_nodes)%nat ->
  0 < discr_step ->
  let spaced :=
    map (fun j => loc severity + INR j * discr_step)
        (seq 0 (n_discr_nodes + extra exit_point)) in
  (exists r, mass_dispersal severity deductible exit_point discr_step n_discr_nodes
             = Return r /\ nodes r = spaced)
  /\ (exists r, lower_discretization severity deductible exit_point discr_step
                                     n_discr_nodes = Return r /\ nodes r = spaced)
  /\ (exists r, local_moments severity deductible exit_point discr_step n_discr_nodes
                = Return r /\ nodes r = spaced)
  /\ forall i j, (i < j)%nat -> (j < length spaced)%nat ->
       nth i spaced 0 < nth j spaced 0.
Proof.
  intros Hn Hstep spaced.
  pose proof (extended_grid_values severity discr_step n_discr_nodes exit_point Hn)
    as Hg.
  repeat split.
  - unfold mass_dispersal. rewrite Hg. eexists; split; reflexivity.
  - unfold lower_discretization. rewrite Hg. eexists; split; reflexivity.
  - unfold local_moments. rewrite Hg. eexists; split; reflexivity.
  - intros i j Hij Hj. unfold spaced in *. rewrite length_map, length_seq in Hj.
    rewrite !(map_nth_in_range (fun j => loc severity + INR j * discr_step) _ 0%nat)
      by (rewrite length_seq; lia).
    rewrite !seq_nth by lia. simpl Nat.add.
    assert (INR i < INR j) by (apply lt_INR; exact Hij).
    nra.
Qed.

Lemma returned_nodes_are_the_grid_witness :
  let spaced := map (fun j => loc uniform10 + INR j * 1) (seq 0 (2 + extra (Finite 2))) in
  (exists r, mass_dispersal uniform10 0 (Finite 2) 1 2 = Return r /\ nodes r = spaced)
  /\ (exists r, lower_discretization uniform10 0 (Finite 2) 1 2 = Return r
                /\ nodes r = spaced)
  /\ (exists r, local_moments uniform10 0 (Finite 2) 1 2 = Return r
                /\ nodes r = spaced)
  /\ forall i j, (i < j)%nat -> (j < length spaced)%nat ->
       nth i spaced 0 < nth j spaced 0.
Proof.
  apply (returned_nodes_are_the_grid uniform10 0 1 2 (Finite 2)); [lia|lra].
Defined.

Lemma consecutive_differences_seq (q : nat -> R) (k : nat) :
  forall lo,
    np.zip_with Rminus (tl (map q (seq lo (S k)))) (removelast (map q (seq lo (S k))))
    = map (fun j => q (S j) - q j) (seq lo k).
Proof.
  induction k as [|k IH]; intro lo; [reflexivity|].
  change (seq lo (S (S k))) with (lo :: seq (S lo) (S k)).
  change (tl (map q (lo :: seq (S lo) (S k)))) with (map q (seq (S lo) (S k))).
  assert (Hrl : removelast (map q (lo :: seq (S lo) (S k)))
                = q lo :: removelast (map q (seq (S lo) (S k))))
    by reflexivity.
  rewrite Hrl.
  assert (Htl : map q (seq (S lo) (S k)) = q (S lo) :: tl (map q (seq (S lo) (S k))))
    by reflexivity.
  rewrite Htl at 1.
  change (np.zip_with Rminus (q (S lo) :: ?t) (q lo :: ?r))
    with ((q (S lo) - q lo) :: np.zip_with Rminus t r).
  rewrite IH. reflexivity.
Qed.

Lemma increments_seq (severity : Severity) (deductible : R) (q : nat -> R)
      (lo k : nat) :
  increments severity deductible (map q (seq lo (S k)))
  = map (fun j => (q (S j) - q j) / (1 - cdf (smodel severity) deductible))
        (seq lo k).
Proof.
  unfold increments. rewrite consecutive_differences_seq, map_map. reflexivity.
Qed.

Lemma increments_nonneg (severity : Severity) (deductible : R) (q : nat -> R)
      (n : nat) :
  cdf (smodel severity) deductible < 1 ->
  (forall j, q j <= q (S j)) ->
  Forall (fun x => 0 <= x) (increments severity deductible (map q (seq 0 n))).
Proof.
  intros HF Hq. destruct n as [|k]; [constructor|].
  rewrite increments_seq. apply Forall_forall. intros y Hy.
  apply in_map_iff in Hy. destruct Hy as (j & <- & _).
  apply Rmult_le_pos; [specialize (Hq j); lra|].
  left. apply Rinv_0_lt_compat. lra.
Qed.

(** X4. For a cdf that is non-decreasing with values in [[0, 1]], a
    deductible that leaves some mass above it ([cdf(d) < 1]) and a step
    [discr_step >= 0], no mass returned by [mass_dispersal],
    [lower_discretization] or [upper_discretization] is negative, whatever
    the exit point and the number of nodes. *)
Theorem cdf_based_masses_are_nonnegative
        (severity : Severity) (deductible discr_step : R) (n_discr_nodes : nat)
        (exit_point : bound) :
  valid_cdf (cdf (smodel severity)) ->
  cdf (smodel severity) deductible < 1 ->
  0 <= discr_step ->
  (forall r, mass_dispersal severity deductible exit_point discr_step n_discr_nodes
             = Return r -> Forall (fun x => 0 <= x) (fj r))
  /\ (forall r, lower_discretization severity deductible exit_point discr_step
                                     n_discr_nodes = Return r ->
                Forall (fun x => 0 <= x) (fj r))
  /\ Forall (fun x => 0 <= x)
            (fj (upper_discretization severity deductible exit_point discr_step
                                      n_discr_nodes)).
Proof.
  intros [Hmono Hrange] HF Hstep.
  set (F := cdf (smodel severity)) in *.
  assert (Hdiv : forall x, 0 <= x -> 0 <= x / (1 - F deductible)).
  { intros x Hx. apply Rmult_le_pos; [exact Hx|].
    left. apply Rinv_0_lt_compat. lra. }
  assert (Htail : forall v, 0 <= (1 - F v) / (1 - F deductible)).
  { intros v. apply Hdiv. specialize (Hrange v). lra. }
  assert (Hinc : forall (c : R),
             Forall (fun x => 0 <= x)
                    (increments severity deductible
                       (map (fun j => F (deductible + (INR j + c) * discr_step))
                            (seq 0 n_discr_nodes)))).
  { intros c. apply increments_nonneg; [exact HF|].
    intros j. apply Hmono. rewrite S_INR. nra. }
  assert (Hinc0 : forall m,
             Forall (fun x => 0 <= x)
                    (increments severity deductible
                       (map (fun j => F (deductible + INR j * discr_step))
                            (seq 0 m)))).
  { intros m. apply increments_nonneg; [exact HF|].
    intros j. apply Hmono. rewrite S_INR. nra. }
  split; [|split].
  - intros r Hr. unfold mass_dispersal in Hr.
    destruct (extend_grid _ _ _) as [nd|e]; [|discriminate].
    apply Return_inj in Hr. subst r. cbn [fj].
    unfold np.arange. rewrite Nat.sub_0_r, map_map. fold F.
    assert (H0 : 0 <= (F (deductible + discr_step / 2) - F deductible)
                      / (1 - F deductible)).
    { apply Hdiv. assert (F deductible <= F (deductible + discr_step / 2))
        by (apply Hmono; lra). lra. }
    destruct exit_point as [v|].
    + apply Forall_app. split; [|constructor; [apply Htail|constructor]].
      constructor; [exact H0|]. apply (Hinc (5 / 10)).
    + constructor; [exact H0|]. apply (Hinc (5 / 10)).
  - intros r Hr. unfold lower_discretization in Hr.
    destruct (extend_grid _ _ _) as [nd|e]; [|discriminate].
    apply Return_inj in Hr. subst r. cbn [fj].
    unfold np.arange. rewrite Nat.sub_0_r, map_map. fold F.
    assert (H0 : 0 <= (F deductible - F deductible) / (1 - F deductible))
      by (apply Hdiv; lra).
    destruct exit_point as [v|].
    + apply Forall_app. split; [|constructor; [apply Htail|constructor]].
      constructor; [exact H0|]. apply Hinc0.
    + constructor; [exact H0|]. apply Hinc0.
  - unfold upper_discretization. cbn [fj].
    unfold np.arange. rewrite Nat.sub_0_r, map_map. fold F.
    destruct exit_point as [v|].
    + apply Forall_app. split; [apply Hinc0|].
      constructor; [apply Htail|constructor].
    + apply Hinc0.
Qed.

Lemma cdf_based_masses_are_nonnegative_witness :
  (forall r, mass_dispersal uniform10 0 (Finite 2) 1 2 = Return r ->
             Forall (fun x => 0 <= x) (fj r))
  /\ (forall r, lower_discretization uniform10 0 (Finite 2) 1 2 = Return r ->
                Forall (fun x => 0 <= x) (fj r))
  /\ Forall (fun x => 0 <= x) (fj (upper_discretization uniform10 0 (Finite 2) 1 2)).
Proof.
  apply (cdf_based_masses_are_nonnegative uniform10 0 1 2 (Finite 2)).
  - exact uniform10_cdf_valid.
  - simpl. rewrite uniform10_cdf_inside; lra.
  - lra.
Defined.

(** X5. With an infinite exit point, [n_discr_nodes >= 1], a valid cdf with
    [cdf(d) < 1] and [discr_step >= 0], the masses of [mass_dispersal],
    [lower_discretization] and [upper_discretization] add up to the
    conditional probability of the range they cover,
    [(cdf(b) - cdf(d)) / (1 - cdf(d))] with last boundary
    [b = d + (n - 1/2) h], [d + (n - 1) h] and [d + n h] respectively: a
    total between 0 and 1, short of 1 by the conditional tail beyond [b]. *)
Theorem infinite_exit_total_mass
        (severity : Severity) (deductible discr_step : R) (n_discr_nodes : nat) :
  valid_cdf (cdf (smodel severity)) ->
  cdf (smodel severity) deductible < 1 ->
  0 <= discr_step ->
  (1 <= n_discr_nodes)%nat ->
  let F := cdf (smodel severity) in
  let covered (b : R) := (F b - F deductible) / (1 - F deductible) in
  let top := deductible + INR n_discr_nodes * discr_step in
  (exists r, mass_dispersal severity deductible Infinity discr_step n_discr_nodes
             = Return r
             /\ np.sum (fj r) = covered (top - discr_step / 2)
             /\ 0 <= np.sum (fj r) <= 1)
  /\ (exists r, lower_discretization severity deductible Infinity discr_step
                                     n_discr_nodes = Return r
             /\ np.sum (fj r) = covered (top - discr_step)
             /\ 0 <= np.sum (fj r) <= 1)
  /\ (np.sum (fj (upper_discretization severity deductible Infinity discr_step
                                       n_discr_nodes)) = covered top
      /\ 0 <= np.sum (fj (upper_discretization severity deductible Infinity
                                               discr_step n_discr_nodes)) <= 1).
Proof.
  intros [Hmono Hrange] HF Hstep Hn F covered top.
  assert (HF' : cdf (smodel severity) deductible <> 1) by lra.
  assert (Hn' : 1 <= INR n_discr_nodes) by (apply (le_INR 1); exact Hn).
  assert (Hcov : forall b, deductible <= b -> 0 <= covered b <= 1).
  { intros b Hb. unfold covered.
    pose proof (Hmono deductible b Hb) as H1. pose proof (Hrange b) as H2.
    fold F in H1, H2, HF.
    assert (Hpos : 0 < 1 - F deductible) by lra.
    split.
    - apply Rmult_le_pos; [lra|]. left. apply Rinv_0_lt_compat. exact Hpos.
    - apply (Rmult_le_reg_r (1 - F deductible)); [exact Hpos|].
      unfold Rdiv. rewrite Rmult_assoc, Rinv_l by lra. lra. }
  assert (Heq : forall b, 1 - (1 - F b) / (1 - F deductible) = covered b).
  { intros b. unfold covered. fold F in HF'. field. lra. }
  split; [|split].
  - destruct (mass_dispersal_total severity deductible discr_step n_discr_nodes
                                   Hn Infinity HF') as (r & Hr & Hs).
    exists r. split; [exact Hr|]. fold F in Hs. fold top in Hs.
    rewrite Heq in Hs. split; [exact Hs|]. rewrite Hs. apply Hcov.
    unfold top. nra.
  - destruct (lower_discretization_total severity deductible discr_step
                                         n_discr_nodes Hn Infinity HF')
      as (r & Hr & Hs).
    exists r. split; [exact Hr|]. fold F in Hs. fold top in Hs.
    rewrite Heq in Hs. split; [exact Hs|]. rewrite Hs. apply Hcov.
    unfold top. nra.
  - pose proof (upper_discretization_total severity deductible discr_step
                                           n_discr_nodes Hn Infinity HF') as Hs.
    fold F in Hs. fold top in Hs. rewrite Heq in Hs.
    split; [exact Hs|]. rewrite Hs. apply Hcov. unfold top. nra.
Qed.

Lemma infinite_exit_total_mass_witness :
  let F := cdf (smodel uniform10) in
  let covered (b : R) := (F b - F 0) / (1 - F 0) in
  let top := 0 + INR 2 * 1 in
  (exists r, mass_dispersal uniform10 0 Infinity 1 2 = Return r
             /\ np.sum (fj r) = covered (top - 1 / 2)
             /\ 0 <= np.sum (fj r) <= 1)
  /\ (exists r, lower_discretization uniform10 0 Infinity 1 2 = Return r
             /\ np.sum (fj r) = covered (top - 1)
             /\ 0 <= np.sum (fj r) <= 1)
  /\ (np.sum (fj (upper_discretization uniform10 0 Infinity 1 2)) = covered top
      /\ 0 <= np.sum (fj (upper_discretization uniform10 0 Infinity 1 2)) <= 1).
Proof.
  apply (infinite_exit_total_mass uniform10 0 1 2).
  - exact uniform10_cdf_valid.
  - simpl. rewrite uniform10_cdf_inside; lra.
  - lra.
  - lia.
Defined.

(** X6. For [n_discr_nodes >= 1] and [cdf(d) <> 1], whatever the exit point:
    the first mass of [lower_discretization] is 0, and its first
    [n_discr_nodes] masses are those of [upper_discretization] moved one node
    to the right (a leading 0, then the first [n_discr_nodes - 1] masses of
    the upper scheme). *)
Theorem lower_is_upper_delayed
        (severity : Severity) (deductible discr_step : R) (n_discr_nodes : nat)
        (exit_point : bound) :
  (1 <= n_discr_nodes)%nat ->
  cdf (smodel severity) deductible <> 1 ->
  exists r,
    lower_discretization severity deductible exit_point discr_step n_discr_nodes
    = Return r
    /\ nth 0 (fj r) 0 = 0
    /\ firstn n_discr_nodes (fj r)
       = 0 :: removelast
                (firstn n_discr_nodes
                        (fj (upper_discretization severity deductible exit_point
                                                  discr_step n_discr_nodes))).
Proof.
  intros Hn HF.
  destruct (extend_grid_returns discr_step exit_point _
              (grid_nonempty severity discr_step n_discr_nodes Hn))
    as (nd & Hnd & _).
  unfold lower_discretization. rewrite Hnd. cbn [obind].
  eexists. split; [reflexivity|]. cbn [fj].
  unfold upper_discretization. cbn [fj].
  unfold np.arange. rewrite !Nat.sub_0_r, !map_map.
  destruct n_discr_nodes as [|k]; [lia|].
  replace (S k + 1)%nat with (S (S k)) by lia.
  set (F := cdf (smodel severity)) in *.
  set (q := fun j : nat => F (deductible + INR j * discr_step)).
  rewrite !(increments_seq severity deductible q). fold F.
  set (D := fun j : nat => (q (S j) - q j) / (1 - F deductible)).
  assert (Hz : (F deductible - F deductible) / (1 - F deductible) = 0)
    by (field; lra).
  rewrite Hz.
  assert (Hlow : forall tail, firstn (S k) ((0 :: map D (seq 0 k)) ++ tail)
                              = 0 :: map D (seq 0 k)).
  { intros tail. rewrite firstn_app.
    replace (S k - length (0%R :: map D (seq 0 k)))%nat with 0%nat
      by (simpl; rewrite length_map, length_seq; lia).
    rewrite firstn_all2 by (simpl; rewrite length_map, length_seq; lia).
    simpl firstn. apply app_nil_r. }
  assert (Hup : forall tail, firstn (S k) (map D (seq 0 (S k)) ++ tail)
                             = map D (seq 0 k) ++ [D k]).
  { intros tail. rewrite firstn_app.
    replace (S k - length (map D (seq 0 (S k))))%nat with 0%nat
      by (rewrite length_map, length_seq; lia).
    rewrite firstn_all2 by (rewrite length_map, length_seq; lia).
    simpl firstn. rewrite app_nil_r, seq_S, map_app. reflexivity. }
  destruct exit_point as [v|].
  - split; [reflexivity|].
    rewrite Hlow, Hup, removelast_last. reflexivity.
  - split; [reflexivity|].
    rewrite <- (app_nil_r (0 :: map D (seq 0 k))), Hlow.
    rewrite <- (app_nil_r (map D (seq 0 (S k)))), Hup, removelast_last.
    reflexivity.
Qed.

Lemma lower_is_upper_delayed_witness :
  exists r,
    lower_discretization uniform10 0 (Finite 2) 1 2 = Return r
    /\ nth 0 (fj r) 0 = 0
    /\ firstn 2 (fj r)
       = 0 :: removelast (firstn 2 (fj (upper_discretization uniform10 0 (Finite 2) 1 2))).
Proof.
  apply (lower_is_upper_delayed uniform10 0 1 2 (Finite 2)); [lia|].
  simpl. rewrite uniform10_cdf_inside; lra.
Defined.

(* ------------------------------------------------------------------ *)
(** * Further properties of the deterministic aggregations *)

Lemma clipped_cumsum_empty (normalize : bool) : clipped_cumsum [] normalize = [].
Proof. destruct normalize; reflexivity. Qed.

Lemma finish_empty (tol : R) (normalize : bool) (discr_step : R) (n : nat)
      (lg : list diagnostic) :
  finish tol [] normalize discr_step n lg = (Raise IndexError, lg).
Proof.
  unfold finish, bind, lift. fold (normalized [] normalize).
  fold (clipped_cumsum [] normalize). rewrite clipped_cumsum_empty. reflexivity.
Qed.

(** What a run of the common tail can be: on an empty mass vector an
    [IndexError] and an untouched logger; otherwise the result, with the
    logger extended by the warning or left alone according to the last
    cumulative probability. *)
Lemma finish_cases (tol : R) (g : list R) (normalize : bool) (discr_step : R)
      (n : nat) (lg : list diagnostic) :
  (g = [] /\ finish tol g normalize discr_step n lg = (Raise IndexError, lg))
  \/ (g <> []
      /\ exists lg',
          finish tol g normalize discr_step n lg
          = (Return {| Aggregate.cdf := clipped_cumsum g normalize;
                       Aggregate.nodes :=
                         map (fun i => discr_step * INR i) (np.arange 0 n) |}, lg')
          /\ ((1 - last (clipped_cumsum g normalize) 0 <= tol /\ lg' = lg)
              \/ (1 - last (clipped_cumsum g normalize) 0 > tol
                  /\ lg' = lg ++ [shortfall_warning
                                    (last (clipped_cumsum g normalize) 0)]))).
Proof.
  destruct g as [|x xs].
  - left. split; [reflexivity|apply finish_empty].
  - right. split; [congruence|].
    rewrite finish_returns by congruence. cbv zeta.
    destruct (Rgt_dec (1 - last (clipped_cumsum (x :: xs) normalize) 0) tol) as [H|H];
      eexists; (split; [reflexivity|]); [right|left]; split; auto; lra.
Qed.

Lemma lifted_run (A : Type) (o : outcome (list R)) (k : list R -> M A)
      (lg : list diagnostic) :
  bind (lift o) k lg
  = match o with
    | Return g => k g lg
    | Raise e => (Raise e, lg)
    end.
Proof. unfold bind, lift. destruct o; reflexivity. Qed.

Lemma clipped_cumsum_at_most_one (g : list R) (normalize : bool) :
  Forall (fun x => x <= 1) (clipped_cumsum g normalize).
Proof.
  unfold clipped_cumsum, np.minimum. apply Forall_forall. intros y Hy.
  apply in_map_iff in Hy. destruct Hy as (x & <- & _). apply Rmin_r.
Qed.

(** The outcome of a run, read on the mass vector. *)
Lemma aggregation_run_cases (tol : R) (o : outcome (list R)) (normalize : bool)
      (discr_step : R) (n : nat) (lg : list diagnostic) :
  match bind (lift o) (fun g => finish tol g normalize discr_step n) lg with
  | (Raise e, lg') => lg' = lg
  | (Return res, lg') =>
      Forall (fun x => x <= 1) (Aggregate.cdf res)
      /\ Aggregate.nodes res = map (fun j => discr_step * INR j) (seq 0 n)
      /\ ((1 - last (Aggregate.cdf res) 0 <= tol /\ lg' = lg)
          \/ (1 - last (Aggregate.cdf res) 0 > tol
              /\ lg' = lg ++ [shortfall_warning (last (Aggregate.cdf res) 0)]))
  end.
Proof.
  rewrite lifted_run. destruct o as [g|e]; [|reflexivity].
  destruct (finish_cases tol g normalize discr_step n lg)
    as [[_ H]|[_ (lg' & H & Hlog)]]; rewrite H; [reflexivity|].
  cbn [Aggregate.cdf Aggregate.nodes]. split; [apply clipped_cumsum_at_most_one|].
  split; [|exact Hlog].
  unfold np.arange. rewrite Nat.sub_0_r. reflexivity.
Qed.

(** X7. On every input, sizes fitting or not: when [fast_fourier_transform]
    or [panjer_recursion] raises, the logger is left as it was; when it
    returns, no cdf entry exceeds 1, the nodes are [discr_step * j] for
    [j = 0..n_aggr_dist_nodes - 1], and the logger has gained nothing if
    [1 - cdf[-1] <= PROB_TOLERANCE] and exactly one warning carrying
    [cdf[-1]] otherwise. *)
Theorem deterministic_run_discipline
        (PROB_TOLERANCE : R) (fft ifft : list C -> list C)
        (severity : Discretized) (frequency : Frequency)
        (n_aggr_dist_nodes : nat) (discr_step : R) (tilt : bool)
        (tilt_value : option R) (normalize : bool) (lg : list diagnostic) :
  let good (res : Aggregate.t) (lg' : list diagnostic) :=
    Forall (fun x => x <= 1) (Aggregate.cdf res)
    /\ Aggregate.nodes res
       = map (fun j => discr_step * INR j) (seq 0 n_aggr_dist_nodes)
    /\ ((1 - last (Aggregate.cdf res) 0 <= PROB_TOLERANCE /\ lg' = lg)
        \/ (1 - last (Aggregate.cdf res) 0 > PROB_TOLERANCE
            /\ lg' = lg ++ [shortfall_warning (last (Aggregate.cdf res) 0)])) in
  match fast_fourier_transform PROB_TOLERANCE fft ifft severity frequency
                               n_aggr_dist_nodes discr_step tilt tilt_value
                               normalize lg with
  | (Raise e, lg') => lg' = lg
  | (Return res, lg') => good res lg'
  end
  /\ match panjer_recursion PROB_TOLERANCE frequency severity n_aggr_dist_nodes
                            discr_step normalize lg with
     | (Raise e, lg') => lg' = lg
     | (Return res, lg') => good res lg'
     end.
Proof.
  intros good. split.
  - apply (aggregation_run_cases PROB_TOLERANCE
             (fft_masses fft ifft severity frequency n_aggr_dist_nodes tilt tilt_value)).
  - apply (aggregation_run_cases PROB_TOLERANCE
             (panjer_masses frequency severity n_aggr_dist_nodes)).
Qed.

(** X10. A severity with more masses than [n_aggr_dist_nodes >= 1] is
    rejected: [np.repeat] is asked for a negative count, and both
    [fast_fourier_transform] and [panjer_recursion] raise [ValueError]
    without writing to the logger. *)
Theorem oversized_severity_is_rejected
        (PROB_TOLERANCE : R) (fft ifft : list C -> list C)
        (severity : Discretized) (frequency : Frequency)
        (n_aggr_dist_nodes : nat) (discr_step : R) (tilt : bool)
        (tilt_value : option R) (normalize : bool) (lg : list diagnostic) :
  (1 <= n_aggr_dist_nodes)%nat ->
  (n_aggr_dist_nodes < length (fj severity))%nat ->
  fast_fourier_transform PROB_TOLERANCE fft ifft severity frequency
                         n_aggr_dist_nodes discr_step tilt tilt_value normalize lg
  = (Raise ValueError, lg)
  /\ panjer_recursion PROB_TOLERANCE frequency severity n_aggr_dist_nodes
                      discr_step normalize lg
     = (Raise ValueError, lg).
Proof.
  intros Hn Hbig.
  assert (Hpad : zero_pad (fj severity) n_aggr_dist_nodes = Raise ValueError).
  { unfold zero_pad, np.repeat0.
    destruct (Z.ltb_spec (Z.of_nat n_aggr_dist_nodes - Z.of_nat (length (fj severity))) 0);
      [reflexivity|lia]. }
  split.
  - unfold fast_fourier_transform. rewrite lifted_run.
    unfold fft_masses, tilting_parameter, py_div.
    destruct tilt; [destruct tilt_value; [|destruct n_aggr_dist_nodes; [lia|]]|];
      cbn [obind]; rewrite Hpad; reflexivity.
  - unfold panjer_recursion. rewrite lifted_run.
    unfold panjer_masses.
    destruct (abp0g0 frequency (fj severity)) as [[[a b] p0] g0].
    rewrite Hpad. reflexivity.
Qed.

Lemma oversized_severity_is_rejected_witness :
  fast_fourier_transform (1 / 1000000) Dft.dft Dft.idft two_point geometric
                         1 1 true None false []
  = (Raise ValueError, [])
  /\ panjer_recursion (1 / 1000000) geometric two_point 1 1 false []
     = (Raise ValueError, []).
Proof.
  apply (oversized_severity_is_rejected (1 / 1000000) Dft.dft Dft.idft two_point
                                        geometric 1 1 true None false []).
  - lia.
  - simpl. lia.
Defined.

(** X11. With [n_aggr_dist_nodes = 0] neither method returns, whatever the
    other arguments: [fast_fourier_transform] raises [ZeroDivisionError]
    when tilting is on without a tilt value and [ValueError] otherwise (a
    non-empty severity does not fit, an empty one leaves an empty array to
    transform); [panjer_recursion] raises [ValueError] or [IndexError]. In
    every case the logger is left as it was. *)
Theorem no_aggregate_node_raises
        (PROB_TOLERANCE : R) (fft ifft : list C -> list C)
        (severity : Discretized) (frequency : Frequency)
        (discr_step : R) (tilt : bool) (tilt_value : option R)
        (normalize : bool) (lg : list diagnostic) :
  fast_fourier_transform PROB_TOLERANCE fft ifft severity frequency 0 discr_step
                         tilt tilt_value normalize lg
  = (Raise (if tilt then match tilt_value with
                         | None => ZeroDivisionError
                         | Some _ => ValueError
                         end
            else ValueError), lg)
  /\ (panjer_recursion PROB_TOLERANCE frequency severity 0 discr_step normalize lg
      = (Raise ValueError, lg)
      \/ panjer_recursion PROB_TOLERANCE frequency severity 0 discr_step normalize lg
         = (Raise IndexError, lg)).
Proof.
  assert (Hpad0 : zero_pad [] 0 = Return []) by reflexivity.
  assert (Hpad1 : forall x xs, zero_pad (x :: xs) 0 = Raise ValueError).
  { intros x xs. unfold zero_pad, np.repeat0.
    destruct (Z.ltb_spec (Z.of_nat 0 - Z.of_nat (length (x :: xs))) 0) as [H|H];
      [reflexivity|simpl length in H; lia]. }
  split.
  - unfold fast_fourier_transform. rewrite lifted_run.
    unfold fft_masses, tilting_parameter, py_div.
    destruct (fj severity) as [|x xs] eqn:Efj.
    + destruct tilt; [destruct tilt_value|]; cbn [obind]; rewrite ?Hpad0;
        reflexivity.
    + destruct tilt; [destruct tilt_value|]; cbn [obind]; rewrite ?Hpad1;
        reflexivity.
  - unfold panjer_recursion. rewrite lifted_run.
    unfold panjer_masses.
    destruct (abp0g0 frequency (fj severity)) as [[[a b] p0] g0].
    destruct (fj severity) as [|x xs] eqn:Efj.
    + rewrite Hpad0.
      cbn [obind np.arange Nat.sub seq panjer_loop map np.item nth_error].
      unfold np.broadcast.
      destruct (Nat.eqb (length (@nil R)) (length (rev g0))); [right; reflexivity|].
      destruct (rev g0) as [|y [|z ys]]; [left|right|left]; reflexivity.
    + rewrite Hpad1. left. reflexivity.
Qed.

(** X12. For a count distribution of the (a, b, 0) class,
    [pmf(1) = (a + b) p0], on inputs of fitting sizes: the masses that
    [panjer_recursion] accumulates into its cdf start at
    [g[0] = g0 / (1 - a fj[0])] and obey, for [j = 1..m-1],
    [g[j] = sum over i = 1..j of (a + b i / j) fj[i] g[j - i]], with no
    division by [1 - a fj[0]] inside the sum. For [a = 0] (Poisson) this is
    [g[0] = g0] and the textbook recursion. *)
Theorem panjer_masses_ab0_class
        (frequency : Frequency) (severity : Discretized) (n_aggr_dist_nodes : nat)
        (a b p0 g0 : R) :
  (1 <= n_aggr_dist_nodes)%nat ->
  (length (fj severity) <= n_aggr_dist_nodes)%nat ->
  abp0g0 frequency (fj severity) = (a, b, p0, [g0]) ->
  pmf (fmodel frequency) 1 = (a + b) * p0 ->
  a * nth 0 (fj severity) 0 <> 1 ->
  exists g,
    panjer_masses frequency severity n_aggr_dist_nodes = Return g
    /\ length g = n_aggr_dist_nodes
    /\ nth 0 g 0 = g0 / (1 - a * nth 0 (fj severity) 0)
    /\ forall j, (1 <= j < n_aggr_dist_nodes)%nat ->
         nth j g 0 = Spec.panjer_sum a b (fj severity) (fun t => nth t g 0) j.
Proof.
  intros Hn Hfit Hco Hp1 Hden.
  destruct (panjer_masses_returns frequency severity n_aggr_dist_nodes a b p0 g0
                                  Hn Hfit Hco)
    as (h & g & Hrun & Hlen & H0 & Hrec & Hent).
  exists g. split; [exact Hrun|]. split; [exact Hlen|].
  set (c := 1 - a * nth 0 (fj severity) 0) in *.
  assert (Hg : forall j, (j < n_aggr_dist_nodes)%nat -> nth j g 0 = h j / c).
  { intros j Hj. rewrite Hent by exact Hj. unfold Spec.panjer_g. fold c.
    rewrite Hp1. f_equal. ring. }
  split.
  - rewrite Hg by lia. rewrite H0. reflexivity.
  - intros j Hj. rewrite Hg by lia. rewrite Hrec by exact Hj.
    rewrite (panjer_sum_ext a b (fj severity) (fun t => nth t g 0)
                            (fun t => h t / c) j) by (try lia; intros; apply Hg; lia).
    unfold Spec.panjer_sum, sum_f, Rdiv.
    rewrite Rmult_comm, scal_sum.
    apply sum_eq. intros i _. ring.
Qed.

Lemma panjer_masses_ab0_class_witness :
  exists g,
    panjer_masses geometric two_point 3 = Return g
    /\ length g = 3%nat
    /\ nth 0 g 0 = 1 / (2 - nth 0 (fj two_point) 0)
                   / (1 - 1 / 2 * nth 0 (fj two_point) 0)
    /\ forall j, (1 <= j < 3)%nat ->
         nth j g 0 = Spec.panjer_sum (1 / 2) 0 (fj two_point) (fun t => nth t g 0) j.
Proof.
  apply (panjer_masses_ab0_class geometric two_point 3 (1 / 2) 0 (1 / 2)
                                 (1 / (2 - nth 0 (fj two_point) 0))).
  - lia.
  - simpl. lia.
  - reflexivity.
  - simpl. lra.
  - simpl. lra.
Defined.

(* ------------------------------------------------------------------ *)
(** * Further properties of the simulation *)

Lemma firstn_plus (c m : nat) :
  forall draws : list R,
    firstn (c + m) draws = firstn c draws ++ firstn m (skipn c draws).
Proof.
  induction c as [|c IH]; intro draws; [reflexivity|].
  destruct draws as [|x xs].
  - simpl. rewrite firstn_nil. reflexivity.
  - simpl. rewrite IH. reflexivity.
Qed.

Lemma groups_concat (counts : list nat) :
  forall draws, concat (Spec.groups counts draws) = firstn (npx.sum_nat counts) draws.
Proof.
  induction counts as [|c rest IH]; intro draws; [reflexivity|].
  simpl Spec.groups. simpl concat. rewrite IH.
  change (npx.sum_nat (c :: rest)) with (c + npx.sum_nat rest)%nat.
  rewrite firstn_plus. reflexivity.
Qed.

Lemma sum_of_sums (ls : list (list R)) :
  np.sum (map np.sum ls) = np.sum (concat ls).
Proof.
  induction ls as [|l ls IH]; [reflexivity|].
  simpl concat. rewrite sum_app, <- IH. reflexivity.
Qed.

Lemma groups_nth_length (counts : list nat) :
  forall (draws : list R) (k : nat),
    (npx.sum_nat counts <= length draws)%nat -> (k < length counts)%nat ->
    length (nth k (Spec.groups counts draws) []) = nth k counts 0%nat.
Proof.
  induction counts as [|c rest IH]; intros draws k Hlen Hk; simpl in Hk; [lia|].
  change (npx.sum_nat (c :: rest)) with (c + npx.sum_nat rest)%nat in Hlen.
  destruct k as [|k]; simpl.
  - rewrite length_firstn. lia.
  - apply IH; [rewrite length_skipn; lia|lia].
Qed.

Lemma groups_nth_incl (counts : list nat) :
  forall (draws : list R) (k : nat) (x : R),
    In x (nth k (Spec.groups counts draws) []) -> In x draws.
Proof.
  induction counts as [|c rest IH]; intros draws k x Hx.
  - destruct k; simpl in Hx; contradiction.
  - destruct k as [|k]; simpl in Hx.
    + rewrite <- (firstn_skipn c draws). apply in_or_app. left. exact Hx.
    + rewrite <- (firstn_skipn c draws). apply in_or_app. right.
      apply (IH _ k). exact Hx.
Qed.

Lemma sum_at_most (c : R) (xs : list R) :
  Forall (fun x => x <= c) xs -> np.sum xs <= INR (length xs) * c.
Proof.
  induction 1 as [|x xs Hx _ IH].
  - unfold np.sum. simpl. lra.
  - change (np.sum (x :: xs)) with (x + np.sum xs).
    change (length (x :: xs)) with (S (length xs)). rewrite S_INR. lra.
Qed.

(** Under the size conventions of the samplers, the realizations are the
    sums of the draws grouped by the counts. *)
Lemma mc_xsim_grouped
      (rng : Type) (seeded : Z -> rng)
      (np_random_uniform : R -> R -> nat -> rng -> list R * rng)
      (severity : Severity) (frequency : Frequency) (cover deductible : R)
      (n_sim : nat) (random_state : Z) (st : rng) :
  (forall low high size s, length (fst (np_random_uniform low high size s)) = size) ->
  length (rvs (fmodel frequency) n_sim random_state) = n_sim ->
  (1 <= n_sim)%nat ->
  let counts := mc_fqsample frequency n_sim random_state in
  let sv := fst (mc_svsample rng seeded np_random_uniform severity frequency cover
                             deductible n_sim random_state st) in
  length sv = npx.sum_nat counts
  /\ fst (mc_xsim rng seeded np_random_uniform severity frequency cover deductible
                  n_sim random_state st)
     = map np.sum (Spec.groups counts sv).
Proof.
  intros Hsize Hrvs Hn counts sv.
  assert (Hlen : length sv = npx.sum_nat counts).
  { unfold sv. rewrite mc_svsample_seeded, !length_map. apply Hsize. }
  split; [exact Hlen|].
  assert (Hc : length counts = n_sim) by exact Hrvs.
  rewrite mc_xsim_seeded. unfold sv. rewrite mc_svsample_seeded.
  f_equal. unfold mc_cs, npx.split, npx.cumsum_nat. fold counts.
  rewrite upto_pred_full
    by (try exact Hn; rewrite cumsum_nat_from_length; exact Hc).
  unfold sv in Hlen. rewrite mc_svsample_seeded in Hlen.
  destruct counts as [|c rest] eqn:E; [simpl in Hc; lia|].
  rewrite split_from_groups by (simpl in Hlen |- *; lia).
  reflexivity.
Qed.

(** X13. In [mc_simulation] with [n_sim >= 1] (samplers returning as many
    values as asked), the grouping loses and repeats no draw: the aggregate
    realizations add up to the sum of all capped severity variates, and the
    realization of a year is at most its claim count times the cover. *)
Theorem simulated_years_account_for_every_draw
        (rng : Type) (seeded : Z -> rng)
        (np_random_uniform : R -> R -> nat -> rng -> list R * rng)
        (severity : Severity) (frequency : Frequency) (cover deductible : R)
        (n_sim : nat) (random_state : Z) (st : rng) :
  (forall low high size s, length (fst (np_random_uniform low high size s)) = size) ->
  length (rvs (fmodel frequency) n_sim random_state) = n_sim ->
  (1 <= n_sim)%nat ->
  let counts := mc_fqsample frequency n_sim random_state in
  let sv := fst (mc_svsample rng seeded np_random_uniform severity frequency cover
                             deductible n_sim random_state st) in
  let xsim := fst (mc_xsim rng seeded np_random_uniform severity frequency cover
                           deductible n_sim random_state st) in
  np.sum xsim = np.sum sv
  /\ forall k, (k < n_sim)%nat ->
       nth k xsim 0 <= INR (nth k counts 0%nat) * cover.
Proof.
  intros Hsize Hrvs Hn counts sv xsim.
  destruct (mc_xsim_grouped rng seeded np_random_uniform severity frequency cover
              deductible n_sim random_state st Hsize Hrvs Hn) as [Hlen Hx].
  fold counts sv in Hlen, Hx. fold xsim in Hx.
  split.
  - rewrite Hx, sum_of_sums, groups_concat, <- Hlen, firstn_all. reflexivity.
  - intros k Hk. rewrite Hx.
    change 0 with (np.sum []). rewrite (map_nth np.sum).
    assert (Hkc : (k < length counts)%nat) by (unfold counts, mc_fqsample; lia).
    rewrite <- (groups_nth_length counts sv k) by (try lia; exact Hkc).
    apply sum_at_most. apply Forall_forall. intros x Hin.
    apply groups_nth_incl in Hin. unfold sv in Hin.
    rewrite mc_svsample_seeded in Hin.
    apply in_map_iff in Hin. destruct Hin as (y & <- & _). apply Rmin_r.
Qed.

Lemma simulated_years_account_for_every_draw_witness :
  let counts := mc_fqsample geometric 4 0 in
  let sv := fst (mc_svsample Z (fun s => s) counter_uniform uniform10 geometric 5
                             1 4 0 7%Z) in
  let xsim := fst (mc_xsim Z (fun s => s) counter_uniform uniform10 geometric 5 1
                           4 0 7%Z) in
  np.sum xsim = np.sum sv
  /\ forall k, (k < 4)%nat -> nth k xsim 0 <= INR (nth k counts 0%nat) * 5.
Proof.
  apply (simulated_years_account_for_every_draw Z (fun s => s) counter_uniform
           uniform10 geometric 5 1 4 0 7%Z).
  - exact counter_uniform_size.
  - reflexivity.
  - lia.
Defined.

Lemma insert_unique_keeps (x y : R) (xs : list R) :
  y = x \/ In y xs -> In y (npx.insert_unique x xs).
Proof.
  induction xs as [|z zs IH]; simpl.
  - intros [H|[]]. left. congruence.
  - destruct (Rlt_dec x z); [|destruct (Req_dec_T x z)]; simpl; intros H.
    + destruct H as [H|[H|H]]; auto.
    + destruct H as [H|[H|H]]; auto. left. congruence.
    + destruct H as [H|[H|H]]; auto.
Qed.

Lemma unique_same_values (xs : list R) (y : R) :
  In y (npx.unique xs) <-> In y xs.
Proof.
  unfold npx.unique. induction xs as [|x xs IH]; simpl; [tauto|]. split.
  - intros H. apply insert_unique_In in H. destruct H as [H|H].
    + left. congruence.
    + right. apply IH. exact H.
  - intros [H|H]; apply insert_unique_keeps.
    + left. congruence.
    + right. apply IH. exact H.
Qed.

(** X14. The nodes that [mc_simulation] returns are strictly increasing,
    they are exactly the values that occur among the aggregate realizations
    [xsim], and the cdf has one entry per node. *)
Theorem simulation_nodes_are_the_realized_values
        (rng : Type) (seeded : Z -> rng)
        (np_random_uniform : R -> R -> nat -> rng -> list R * rng)
        (severity : Severity) (frequency : Frequency) (cover deductible : R)
        (n_sim : nat) (random_state : Z) (st : rng) :
  let res := fst (mc_simulation rng seeded np_random_uniform severity frequency
                                cover deductible n_sim random_state st) in
  let xsim := fst (mc_xsim rng seeded np_random_uniform severity frequency cover
                           deductible n_sim random_state st) in
  StronglySorted Rlt (Aggregate.nodes res)
  /\ (forall x, In x (Aggregate.nodes res) <-> In x xsim)
  /\ length (Aggregate.cdf res) = length (Aggregate.nodes res).
Proof.
  cbv zeta. rewrite mc_simulation_seeded. cbv zeta.
  cbn [Aggregate.cdf Aggregate.nodes].
  split; [apply unique_sorted|]. split.
  - intros x. apply unique_same_values.
  - apply length_map.
Qed.

(** X15. Asked for no simulation ([n_sim = 0], the samplers returning as
    many values as asked), [mc_simulation] still yields one aggregate
    realization: the split of the empty sample is one empty group, so [xsim]
    is [[0]] and the single node returned is 0. *)
Theorem no_simulation_yields_one_zero
        (rng : Type) (seeded : Z -> rng)
        (np_random_uniform : R -> R -> nat -> rng -> list R * rng)
        (severity : Severity) (frequency : Frequency) (cover deductible : R)
        (random_state : Z) (st : rng) :
  (forall low high size s, length (fst (np_random_uniform low high size s)) = size) ->
  length (rvs (fmodel frequency) 0 random_state) = 0%nat ->
  fst (mc_xsim rng seeded np_random_uniform severity frequency cover deductible
               0 random_state st) = [0]
  /\ Aggregate.nodes
       (fst (mc_simulation rng seeded np_random_uniform severity frequency cover
                           deductible 0 random_state st)) = [0].
Proof.
  intros Hsize Hrvs.
  assert (Hcounts : rvs (fmodel frequency) 0 random_state = [])
    by (apply length_zero_iff_nil; exact Hrvs).
  assert (Hx : fst (mc_xsim rng seeded np_random_uniform severity frequency cover
                            deductible 0 random_state st) = [0]).
  { rewrite mc_xsim_seeded. unfold mc_cs, mc_fqsample. rewrite Hcounts.
    cbn [npx.sum_nat fold_right].
    assert (Hu : fst (np_random_uniform (mc_p0 severity deductible) 1 0%nat
                                        (seeded (random_state + 1)%Z)) = [])
      by (apply length_zero_iff_nil; apply Hsize).
    rewrite Hu. reflexivity. }
  split; [exact Hx|].
  rewrite mc_simulation_seeded. cbv zeta. rewrite Hx. reflexivity.
Qed.

Lemma no_simulation_yields_one_zero_witness :
  fst (mc_xsim Z (fun s => s) counter_uniform uniform10 geometric 5 1 0 0 7%Z) = [0]
  /\ Aggregate.nodes
       (fst (mc_simulation Z (fun s => s) counter_uniform uniform10 geometric 5 1
                           0 0 7%Z)) = [0].
Proof.
  apply (no_simulation_yields_one_zero Z (fun s => s) counter_uniform uniform10
                                       geometric 5 1 0 7%Z).
  - exact counter_uniform_size.
  - reflexivity.
Defined.

(* ------------------------------------------------------------------ *)
(** * Shape errors in the recursion *)

Lemma panjer_step_extends (a b : R) (fj1 : list R) (j : nat) (g : list R) :
  (1 <= j)%nat -> (j <= length g)%nat -> (j + 1 <= length fj1)%nat ->
  exists v, panjer_step a b fj1 j g = Return (v :: g).
Proof.
  intros Hj Hg Hf. unfold panjer_step.
  set (coef := map (fun i => a + b * INR i / INR j) (np.arange 1 (j + 1))).
  assert (Hc : length coef = j).
  { unfold coef. rewrite length_map, arange_length. lia. }
  assert (Hs : length (np.slice 1 (j + 1) fj1) = j).
  { rewrite slice_length by exact Hf. lia. }
  assert (Hsg : length (np.slice 0 j g) = j).
  { rewrite slice_length by exact Hg. lia. }
  rewrite broadcast_same_length by congruence. cbn [obind].
  rewrite broadcast_same_length by (rewrite zip_with_length, Hc, Hs, Hsg; lia).
  cbn [obind]. eexists. reflexivity.
Qed.

Lemma panjer_loop_extends (a b : R) (fj1 : list R) (k : nat) :
  forall (j0 : nat) (g : list R),
    (1 <= j0)%nat -> (j0 <= length g)%nat -> (j0 + k <= length fj1)%nat ->
    exists g', panjer_loop a b fj1 (seq j0 k) g = Return g'
               /\ length g' = (length g + k)%nat.
Proof.
  induction k as [|k IH]; intros j0 g Hj Hg Hf.
  - exists g. split; [reflexivity|lia].
  - simpl seq. simpl panjer_loop.
    destruct (panjer_step_extends a b fj1 j0 g Hj Hg) as (v & Hv); [lia|].
    rewrite Hv. cbn [obind].
    destruct (IH (S j0) (v :: g)) as (g' & Hrun & Hlen);
      [lia | simpl; lia | lia |].
    exists g'. split; [exact Hrun|]. simpl in Hlen. lia.
Qed.

(** X16. [panjer_recursion] needs the frequency model to hand back a
    one-entry array [g0]: with [n_aggr_dist_nodes >= 2], a severity that fits
    and an array of two or more entries, the loop runs to its end but the
    final sum of the severity masses and the accumulated sequence has
    operands of different lengths, so the call raises [ValueError], with the
    logger untouched. *)
Theorem panjer_rejects_long_g0
        (PROB_TOLERANCE : R) (frequency : Frequency) (severity : Discretized)
        (n_aggr_dist_nodes : nat) (discr_step : R) (normalize : bool)
        (a b p0 : R) (g0 : list R) (lg : list diagnostic) :
  (2 <= n_aggr_dist_nodes)%nat ->
  (length (fj severity) <= n_aggr_dist_nodes)%nat ->
  abp0g0 frequency (fj severity) = (a, b, p0, g0) ->
  (2 <= length g0)%nat ->
  panjer_recursion PROB_TOLERANCE frequency severity n_aggr_dist_nodes discr_step
                   normalize lg
  = (Raise ValueError, lg).
Proof.
  intros Hn Hfit Hco Hg0.
  unfold panjer_recursion. rewrite lifted_run.
  unfold panjer_masses. rewrite Hco.
  rewrite zero_pad_returns by (try exact Hfit; lia). cbn [obind].
  set (fj1 := fj severity ++ repeat 0 (n_aggr_dist_nodes - length (fj severity))).
  assert (Hlen1 : length fj1 = n_aggr_dist_nodes)
    by (apply zero_pad_length; try exact Hfit; lia).
  unfold np.arange.
  destruct (panjer_loop_extends a b fj1 (n_aggr_dist_nodes - 1) 1 g0)
    as (acc & Hrun & Hacc); [lia | lia | lia |].
  rewrite Hrun. cbn [obind].
  set (xs := map (fun x => (pmf (fmodel frequency) 1 - (a + b) * p0) * x) fj1).
  assert (Hxs : length xs = n_aggr_dist_nodes)
    by (unfold xs; rewrite length_map; exact Hlen1).
  assert (Hys : length (rev acc) = (length g0 + (n_aggr_dist_nodes - 1))%nat)
    by (rewrite length_rev; exact Hacc).
  assert (Hb : np.broadcast Rplus xs (rev acc) = Raise ValueError).
  { unfold np.broadcast.
    destruct (Nat.eqb_spec (length xs) (length (rev acc))) as [He|_]; [lia|].
    destruct xs as [|x [|x' xs']]; simpl in Hxs; try lia.
    destruct (rev acc) as [|y [|y' ys']]; simpl in Hys; try lia.
    reflexivity. }
  rewrite Hb. reflexivity.
Qed.

Lemma panjer_rejects_long_g0_witness :
  panjer_recursion (1 / 1000000)
                   {| fmodel := fmodel geometric;
                      abp0g0 := fun _ => (1 / 2, 0, 1 / 2, [2 / 3; 0]) |}
                   two_point 2 1 false []
  = (Raise ValueError, []).
Proof.
  apply (panjer_rejects_long_g0
           (1 / 1000000)
           {| fmodel := fmodel geometric;
              abp0g0 := fun _ => (1 / 2, 0, 1 / 2, [2 / 3; 0]) |}
           two_point 2 1 false (1 / 2) 0 (1 / 2) [2 / 3; 0] []).
  - lia.
  - simpl. lia.
  - reflexivity.
  - simpl. lia.
Defined.

(* ------------------------------------------------------------------ *)
(** * Total mass of the local moments *)

(** X17. For [n_discr_nodes >= 1] and a normalizer
    [discr_step * den(low = d, loc)] that is not zero, the masses of
    [local_moments] add up to 1 minus the normalized increase of the limited
    expected value over the last bucket, [lev(top - loc) - lev(top - loc - h)]
    with [top = d + n h], plus, for a finite exit point [u], the same
    increase taken at [u]: the total is 1 exactly when the two increases
    agree, and short of 1 by the last-bucket term when the exit point is
    infinite. *)
Theorem local_moments_total_mass
        (severity : Severity) (deductible discr_step : R) (n_discr_nodes : nat)
        (exit_point : bound) :
  (1 <= n_discr_nodes)%nat ->
  discr_step * den (smodel severity) deductible (loc severity) <> 0 ->
  let L := lev (smodel severity) in
  let den_ := discr_step * den (smodel severity) deductible (loc severity) in
  let rise (x : R) := L (x - loc severity) - L (x - loc severity - discr_step) in
  let top := deductible + INR n_discr_nodes * discr_step in
  exists r,
    local_moments severity deductible exit_point discr_step n_discr_nodes = Return r
    /\ np.sum (fj r)
       = match exit_point with
         | Finite u => 1 + (rise u - rise top) / den_
         | Infinity => 1 - rise top / den_
         end
    /\ (forall u, exit_point = Finite u -> rise u = rise top -> np.sum (fj r) = 1).
Proof.
  intros Hn Hden L den_ rise top.
  destruct (local_moments_total severity deductible discr_step n_discr_nodes
                                Hn exit_point Hden) as (r & Hr & Hs).
  exists r. split; [exact Hr|]. split; [exact Hs|].
  intros u -> Hrise. rewrite Hs. fold L. fold top. fold (rise u) (rise top) den_.
  rewrite Hrise. unfold Rminus. rewrite Rplus_opp_r. unfold Rdiv.
  rewrite Rmult_0_l. lra.
Qed.

Lemma local_moments_total_mass_witness :
  let L := lev (smodel uniform10) in
  let den_ := 1 * den (smodel uniform10) 0 (loc uniform10) in
  let rise (x : R) := L (x - loc uniform10) - L (x - loc uniform10 - 1) in
  let top := 0 + INR 2 * 1 in
  exists r,
    local_moments uniform10 0 (Finite 2) 1 2 = Return r
    /\ np.sum (fj r) = 1 + (rise 2 - rise top) / den_
    /\ (forall u, Finite 2 = Finite u -> rise u = rise top -> np.sum (fj r) = 1).
Proof.
  apply (local_moments_total_mass uniform10 0 1 2 (Finite 2)); [lia|].
  simpl. rewrite uniform10_cdf_inside; lra.
Defined.
